(** * Pacman.py: pursuit pathfinding, motion and capture

    A shallow embedding of the game core of [Pacman.py] (the grid, the
    players, the ghosts, the A* search and the collision test) together with
    the properties the specification states about it.

    Conventions of the embedding.
    - Python [int] is [Z].  Python [float] is modelled by the exact rationals
      [Q]: every double is a rational, [round] and [int] are exact on doubles,
      and the arithmetic of the program is read as exact arithmetic.  A float
      holds a value, not a fraction, so a computed coordinate is stored in
      lowest terms ([Qred], which does not change the value).
    - The grid is a Python list of lists that the players mutate in place;
      code that touches it runs in the monad [M], which threads the grid and
      an outcome (a value, a raised exception, or an exhausted loop budget).
      Its rows are distinct lists, as [create_grid] builds them.
    - The two dictionaries of the search are [gmap]s keyed by cells.
    - [heapq] on tuples [(priority, (x, y))] is a bag from which the least
      tuple (lexicographic order) is popped; equal tuples are
      indistinguishable, so the array layout of the heap is not observable. *)

From Stdlib Require Import ZArith QArith Qround Qabs Lia List Reals Qreals Psatz.
From stdpp Require Import gmap list strings.

Local Open Scope Z_scope.

(** ** Python numerics *)

(** [round(x)] of Python 3 on a float: nearest integer, ties to the even
    neighbour. *)
Definition py_round (q : Q) : Z :=
  let f := Qfloor q in
  match Qcompare (q - inject_Z f) (1 # 2) with
  | Lt => f
  | Gt => f + 1
  | Eq => if Z.even f then f else f + 1
  end.

(** [int(x)] on a float: truncation toward zero. *)
Definition py_int (q : Q) : Z := Z.quot (Qnum q) (Z.pos (Qden q)).

(** ** Game constants *)

Definition GRID_SIZE : Z := 20.
Definition CELL_SIZE : Z := 25.

Definition Cell : Type := Z * Z.
Definition Pos : Type := Q * Q.

Definition DIRECTIONS_UP : Z * Z := (0, 1).
Definition DIRECTIONS_DOWN : Z * Z := (0, -1).
Definition DIRECTIONS_LEFT : Z * Z := (1, 0).
Definition DIRECTIONS_RIGHT : Z * Z := (-1, 0).

Definition Color : Type := Z * Z * Z.
Definition GREEN : Color := (0, 255, 0).
Definition PURPLE : Color := (128, 0, 128).

(** ** The grid and the monad of grid-touching code *)

Definition Grid : Type := list (list Z).

(** The exceptions the code can raise, and [InvalidConfiguration], the error
    the specification names for construction (nothing in the source raises
    it). *)
Inductive exn : Type := IndexError | KeyError | InvalidConfiguration.

Inductive outcome (A : Type) : Type :=
| Ok (a : A)
| Raise (e : exn)
| OutOfFuel.
Arguments Ok {A} a.
Arguments Raise {A} e.
Arguments OutOfFuel {A}.

Definition M (A : Type) : Type := Grid -> outcome A * Grid.

Definition ret {A} (a : A) : M A := fun g => (Ok a, g).

Definition bind {A B} (m : M A) (k : A -> M B) : M B :=
  fun g =>
    match m g with
    | (Ok a, g') => k a g'
    | (Raise e, g') => (Raise e, g')
    | (OutOfFuel, g') => (OutOfFuel, g')
    end.

Definition raise {A} (e : exn) : M A := fun g => (Raise e, g).
Definition out_of_fuel {A} : M A := fun g => (OutOfFuel, g).

Notation "'let*' x ':=' m 'in' k" := (bind m (fun x => k))
  (at level 10, x name, m at level 200, k at level 200).

(** [l[i]] on a Python list: negative indices count from the end, anything
    outside [-len, len) raises IndexError. *)
Definition py_norm_index (len i : Z) : option nat :=
  if (0 <=? i) && (i <? len) then Some (Z.to_nat i)
  else if (- len <=? i) && (i <? 0) then Some (Z.to_nat (i + len))
  else None.

Definition py_index {A} (l : list A) (i : Z) : option A :=
  match py_norm_index (Z.of_nat (length l)) i with
  | Some n => l !! n
  | None => None
  end.

Definition py_store {A} (l : list A) (i : Z) (a : A) : option (list A) :=
  match py_norm_index (Z.of_nat (length l)) i with
  | Some n => Some (<[n := a]> l)
  | None => None
  end.

(** [grid[y][x]] *)
Definition grid_get (y x : Z) : M Z :=
  fun g =>
    match py_index g y with
    | Some row =>
        match py_index row x with
        | Some c => (Ok c, g)
        | None => (Raise IndexError, g)
        end
    | None => (Raise IndexError, g)
    end.

(** [grid[y][x] = v] *)
Definition grid_set (y x v : Z) : M unit :=
  fun g =>
    match py_index g y with
    | Some row =>
        match py_store row x v with
        | Some row' =>
            match py_store g y row' with
            | Some g' => (Ok tt, g')
            | None => (Raise IndexError, g)
            end
        | None => (Raise IndexError, g)
        end
    | None => (Raise IndexError, g)
    end.

(** A [for] loop over a list, threading an accumulator. *)
Fixpoint for_each {A S} (l : list A) (body : S -> A -> M S) (s : S) : M S :=
  match l with
  | [] => ret s
  | a :: l' => let* s' := body s a in for_each l' body s'
  end.

(** ** get_neighbors *)

Definition in_bounds (c : Cell) : bool :=
  (0 <=? fst c) && (fst c <? GRID_SIZE) && (0 <=? snd c) && (snd c <? GRID_SIZE).

Definition NEIGHBOR_OFFSETS : list (Z * Z) := [(0, 1); (1, 0); (0, -1); (-1, 0)].

Definition get_neighbors (pos : Cell) : M (list Cell) :=
  let '(x, y) := pos in
  for_each NEIGHBOR_OFFSETS
    (fun neighbors d =>
       let nx := x + fst d in
       let ny := y + snd d in
       if in_bounds (nx, ny) then
         let* c := grid_get ny nx in
         if c =? 1 then ret neighbors else ret (neighbors ++ [(nx, ny)])
       else ret neighbors)
    [].

(** ** PriorityQueue *)

Definition Entry : Type := Z * Cell.

(** Python's tuple order on [(priority, (x, y))]. *)
Definition cell_ltb (a b : Cell) : bool :=
  (fst a <? fst b) || ((fst a =? fst b) && (snd a <? snd b)).

Definition entry_leb (a b : Entry) : bool :=
  (fst a <? fst b) || ((fst a =? fst b) && negb (cell_ltb (snd b) (snd a))).

(** [heapq.heappop]: the least entry and the remaining bag. *)
Fixpoint pop_min (l : list Entry) : option (Entry * list Entry) :=
  match l with
  | [] => None
  | e :: l' =>
      match pop_min l' with
      | None => Some (e, [])
      | Some (m, r) => if entry_leb e m then Some (e, l') else Some (m, e :: r)
      end
  end.

Definition PriorityQueue : Type := list Entry.

Definition PriorityQueue_empty (q : PriorityQueue) : bool :=
  Nat.eqb (length q) 0.

Definition PriorityQueue_put (q : PriorityQueue) (item : Cell) (priority : Z)
  : PriorityQueue := (priority, item) :: q.

Definition PriorityQueue_get (q : PriorityQueue) : outcome (Cell * PriorityQueue) :=
  match pop_min q with
  | Some (e, rest) => Ok (snd e, rest)
  | None => Raise IndexError
  end.

(** ** A* search *)

Definition heuristic (a b : Cell) : Z :=
  Z.abs (fst a - fst b) + Z.abs (snd a - snd b).

Record SearchState : Type := {
  frontier : PriorityQueue;
  came_from : gmap Cell (option Cell);
  cost_so_far : gmap Cell Z
}.

Definition lift {A} (o : outcome A) : M A := fun g => (o, g).

(** Body of the loop over the neighbours of [current]. *)
Definition relax (goal current : Cell) (st : SearchState) (next_pos : Cell)
  : M SearchState :=
  match cost_so_far st !! current with
  | None => raise KeyError
  | Some c =>
      let new_cost := c + 1 in
      if match cost_so_far st !! next_pos with
         | None => true
         | Some old => new_cost <? old
         end
      then
        ret {| cost_so_far := <[next_pos := new_cost]> (cost_so_far st);
               frontier := PriorityQueue_put (frontier st) next_pos
                             (new_cost + heuristic goal next_pos);
               came_from := <[next_pos := Some current]> (came_from st) |}
      else ret st
  end.

(** The [while not frontier.empty()] loop, with a budget of iterations. *)
Fixpoint search_loop (fuel : nat) (goal : Cell) (st : SearchState)
  : M SearchState :=
  match fuel with
  | O => out_of_fuel
  | S fuel' =>
      if PriorityQueue_empty (frontier st) then ret st
      else
        let* popped := lift (PriorityQueue_get (frontier st)) in
        let current := fst popped in
        let st1 := {| frontier := snd popped;
                      came_from := came_from st;
                      cost_so_far := cost_so_far st |} in
        if decide (current = goal) then ret st1
        else
          let* neighbors := get_neighbors current in
          let* st2 := for_each neighbors (relax goal current) st1 in
          search_loop fuel' goal st2
  end.

(** [came_from.get(current)]: None for a missing key and for the start. *)
Definition came_from_get (cf : gmap Cell (option Cell)) (c : Cell) : option Cell :=
  match cf !! c with
  | Some (Some p) => Some p
  | _ => None
  end.

(** The [while current != start] loop that rebuilds the path backwards. *)
Fixpoint reconstruct (fuel : nat) (cf : gmap Cell (option Cell))
    (start current : Cell) (path : list Cell) : outcome (list Cell) :=
  match fuel with
  | O => OutOfFuel
  | S fuel' =>
      if decide (current = start) then Ok path
      else
        let path' := path ++ [current] in
        match came_from_get cf current with
        | None => Ok path'
        | Some prev => reconstruct fuel' cf start prev path'
        end
  end.

(** Iteration budget of the two loops: more than any run on a 20 x 20 grid
    needs (lemma [search_from_start]). *)
Definition search_fuel : nat := Z.to_nat 400000.

Definition snap (p : Pos) : Cell := (py_round (fst p), py_round (snd p)).

Definition a_star_search (start goal : Pos) : M (list Cell) :=
  let start := snap start in
  let goal := snap goal in
  let frontier := PriorityQueue_put [] start 0 in
  let st0 := {| frontier := frontier;
                came_from := {[ start := None ]};
                cost_so_far := {[ start := 0 ]} |} in
  let* st := search_loop search_fuel goal st0 in
  let* path := lift (reconstruct search_fuel (came_from st) start goal []) in
  ret (rev path).

(** ** create_grid *)

Definition range (a b : Z) : list Z :=
  map (fun k => a + Z.of_nat k) (seq 0 (Z.to_nat (b - a))).

Definition zero_grid : Grid :=
  map (fun _ => map (fun _ => 0) (range 0 GRID_SIZE)) (range 0 GRID_SIZE).

Definition create_grid_body : M unit :=
  let* _ := for_each (range 0 GRID_SIZE)
     (fun _ i =>
        let* _ := grid_set 0 i 1 in
        let* _ := grid_set (GRID_SIZE - 1) i 1 in
        let* _ := grid_set i 0 1 in
        grid_set i (GRID_SIZE - 1) 1) tt in
  let* _ := for_each (range 5 15)
     (fun _ i =>
        let* _ := grid_set 5 i 1 in
        grid_set 15 i 1) tt in
  for_each (range 1 (GRID_SIZE - 1))
     (fun _ i =>
        for_each (range 1 (GRID_SIZE - 1))
          (fun _ j =>
             let* c := grid_get j i in
             if c =? 0 then grid_set j i 2 else ret tt) tt) tt.

Definition create_grid : outcome Grid :=
  match create_grid_body zero_grid with
  | (Ok _, g) => Ok g
  | (Raise e, _) => Raise e
  | (OutOfFuel, _) => OutOfFuel
  end.

Definition the_grid : Grid := Eval vm_compute in
  match create_grid with Ok g => g | _ => [] end.

Definition Z2P (c : Cell) : Pos := (inject_Z (fst c), inject_Z (snd c)).

(** ** Comparisons on floats *)

Definition Qltb (a b : Q) : bool :=
  match Qcompare a b with Lt => true | _ => false end.

Definition Qleb (a b : Q) : bool :=
  match Qcompare a b with Gt => false | _ => true end.

(** ** Player *)

Module Player.

Record t : Type := {
  id : Z;
  position : Pos;
  color : Color;
  name : string;
  direction : Z * Z;
  score : Z;
  speed : Q;
  radius : Z
}.

Definition __init__ (id : Z) (x y : Q) (color : Color) (name : string) : t :=
  {| id := id;
     position := (x, y);
     color := color;
     name := name;
     direction := DIRECTIONS_RIGHT;
     score := 0;
     speed := 1 # 2;
     radius := CELL_SIZE / 2 |}.

Definition set_position (self : t) (p : Pos) : t :=
  {| id := id self; position := p; color := color self; name := name self;
     direction := direction self; score := score self; speed := speed self;
     radius := radius self |}.

Definition set_score (self : t) (n : Z) : t :=
  {| id := id self; position := position self; color := color self;
     name := name self; direction := direction self; score := n;
     speed := speed self; radius := radius self |}.

Definition change_direction (self : t) (new_direction : Z * Z) : t :=
  {| id := id self; position := position self; color := color self;
     name := name self; direction := new_direction; score := score self;
     speed := speed self; radius := radius self |}.

(** [0 <= x < GRID_SIZE and 0 <= y < GRID_SIZE and grid[int(y)][int(x)] != 1] *)
Definition is_valid_move (x y : Q) : M bool :=
  if Qleb 0 x && Qltb x (inject_Z GRID_SIZE)
     && Qleb 0 y && Qltb y (inject_Z GRID_SIZE)
  then
    let* c := grid_get (py_int y) (py_int x) in
    ret (negb (c =? 1))
  else ret false.

Definition collect_pellet (self : t) : M t :=
  let x := py_round (fst (position self)) in
  let y := py_round (snd (position self)) in
  let* c := grid_get y x in
  if c =? 2 then
    let* _ := grid_set y x 0 in
    ret (set_score self (score self + 10))
  else ret self.

Definition move (self : t) : M t :=
  let new_x := Qred (fst (position self)
                     + inject_Z (fst (direction self)) * speed self) in
  let new_y := Qred (snd (position self)
                     + inject_Z (snd (direction self)) * speed self) in
  let* ok := is_valid_move new_x new_y in
  if ok then collect_pellet (set_position self (new_x, new_y))
  else ret self.

(** The class call [Player(id, x, y, color, name)]: [__init__] has no [raise]
    and checks nothing, so the call always yields the object. *)
Definition new (id : Z) (x y : Q) (color : Color) (name : string) : outcome t :=
  Ok (__init__ id x y color name).

End Player.

(** ** Ghost *)

Module Ghost.

Record t : Type := {
  position : Pos;
  color : Color;
  speed : Q;
  radius : Z;
  path : list Cell
}.

Definition __init__ (x y : Q) (color : Color) : t :=
  {| position := (x, y);
     color := color;
     speed := 1 # 10;
     radius := CELL_SIZE / 2;
     path := [] |}.

Definition set_path (self : t) (path : list Cell) : t :=
  {| position := position self; color := color self; speed := speed self;
     radius := radius self; path := path |}.

(** One call of [Ghost.move]; the [grid] argument is not used by the
    source. *)
Definition move (self : t) (grid : Grid) : t :=
  match path self with
  | [] => self
  | next_pos :: rest =>
      let dx := (inject_Z (fst next_pos) - fst (position self))%Q in
      let dy := (inject_Z (snd next_pos) - snd (position self))%Q in
      let new_x := Qred (fst (position self) + speed self * dx) in
      let new_y := Qred (snd (position self) + speed self * dy) in
      if Qltb (Qabs (new_x - inject_Z (fst next_pos))) (1 # 10)
         && Qltb (Qabs (new_y - inject_Z (snd next_pos))) (1 # 10)
      then
        {| position := Z2P next_pos; color := color self;
           speed := speed self; radius := radius self; path := rest |}
      else
        {| position := (new_x, new_y); color := color self;
           speed := speed self; radius := radius self;
           path := next_pos :: rest |}
  end.

(** The class call [Ghost(x, y, color)]. *)
Definition new (x y : Q) (color : Color) : outcome t :=
  Ok (__init__ x y color).

End Ghost.

(** ** check_collision *)

(** [math.dist(p, q) < r] for [r >= 0], decided on the squares: in exact
    arithmetic [sqrt d < r] and [d < r * r] are the same test (lemma
    [dist_below_half] for the threshold of the source). *)
Definition dist_sq (p q : Pos) : Q :=
  ((fst p - fst q) * (fst p - fst q) + (snd p - snd q) * (snd p - snd q))%Q.

Definition dist_below (p q : Pos) (r : Q) : bool := Qltb (dist_sq p q) (r * r).

Fixpoint first_some {A B} (f : A -> option B) (l : list A) : option B :=
  match l with
  | [] => None
  | a :: l' => match f a with Some b => Some b | None => first_some f l' end
  end.

Definition check_collision (players : list Player.t) (ghosts : list Ghost.t)
  : option string :=
  first_some
    (fun player =>
       first_some
         (fun ghost =>
            if dist_below (Player.position player) (Ghost.position ghost) (1 # 2)
            then Some (Player.name player) else None)
         ghosts)
    players.

(** The cell a player's position snaps to. *)
Definition player_cell (self : Player.t) : Cell := snap (Player.position self).


(** [n] calls of a grid-touching method in a row. *)
Definition iter_M {A} (n : nat) (f : A -> M A) (a : A) : M A :=
  Nat.iter n (fun m => let* x := m in f x) (ret a).

(** ** Scenario data *)

(** A 20 x 20 grid with walls on the border only and one pellet, at cell
    (2, 1). *)
Definition border_grid : Grid := Eval vm_compute in
  map (fun y => map (fun x =>
     if (x =? 0) || (x =? 19) || (y =? 0) || (y =? 19) then 1
     else if (x =? 2) && (y =? 1) then 2 else 0) (range 0 20)) (range 0 20).

(** [border_grid] once the pellet at (2, 1) is eaten. *)
Definition border_grid_eaten : Grid := Eval vm_compute in
  map (fun y => map (fun x =>
     if (x =? 0) || (x =? 19) || (y =? 0) || (y =? 19) then 1 else 0)
     (range 0 20)) (range 0 20).

(** The runner of the scenario: [Player(1, 1, 1, GREEN, "Player 1")], whose
    direction is [DIRECTIONS['RIGHT']] from the constructor. *)
Definition runner_1_1 : Player.t := Player.__init__ 1 1 1 GREEN "Player 1".

(** ** Path-driven motion, iterated *)

(** [n] calls of [Ghost.move] in a row. *)
Definition ghost_ticks (n : nat) (grid : Grid) (g : Ghost.t) : Ghost.t :=
  Nat.iter n (fun g' => Ghost.move g' grid) g.

(** Two cells one 4-directional step apart. *)
Definition unit_step (a b : Cell) : Prop :=
  Z.abs (fst a - fst b) + Z.abs (snd a - snd b) = 1.

(** Every waypoint is one step from the one before it. *)
Fixpoint unit_path (path : list Cell) : Prop :=
  match path with
  | [] => True
  | a :: rest =>
      match rest with
      | [] => True
      | b :: _ => unit_step a b /\ unit_path rest
      end
  end.


(** [(1 - s) ^ k]: the fraction of the offset that is left after [k]
    proportional steps. *)
Fixpoint decay (s : Q) (k : nat) : Q :=
  match k with
  | O => 1
  | S k' => (1 - s) * decay s k'
  end.


(** The ghost of the motion examples: [Ghost(10, 10, PURPLE)] with the
    one-waypoint path [(11, 10)]. *)
Definition ghost_10_10 : Ghost.t :=
  Ghost.set_path (Ghost.__init__ 10 10 PURPLE) [(11, 10)].


(** ** Walks on the grid *)

(** The grids the game builds: 20 rows of 20 cells. *)
Definition wf_grid (grid : Grid) : Prop :=
  length grid = 20%nat /\ Forall (fun row => length row = 20%nat) grid.

(** A cell one may step into: inside the grid and not a wall. *)
Definition open_cell (grid : Grid) (b : Cell) : Prop :=
  in_bounds b = true
  /\ exists c, grid_get (snd b) (fst b) grid = (Ok c, grid) /\ c <> 1.

(** One 4-directional step from [a] into the non-wall cell [b]. *)
Definition wall_free_step (grid : Grid) (a b : Cell) : Prop :=
  unit_step a b /\ open_cell grid b.

(** [walk grid a b n]: [n] wall-free steps lead from [a] to [b]. *)
Inductive walk (grid : Grid) : Cell -> Cell -> nat -> Prop :=
| walk_here (a : Cell) : walk grid a a 0
| walk_step (a b c : Cell) (n : nat) :
    wall_free_step grid a b -> walk grid b c n -> walk grid a c (S n).

Definition reachable (grid : Grid) (a b : Cell) : Prop :=
  exists n, walk grid a b n.

(** [path] lists the cells visited after [a], each one step from the one
    before. *)
Fixpoint is_walk (grid : Grid) (a : Cell) (path : list Cell) : Prop :=
  match path with
  | [] => True
  | b :: rest => wall_free_step grid a b /\ is_walk grid b rest
  end.

(** Every cell of the 20 x 20 grid. *)
Definition all_cells : list Cell :=
  flat_map (fun x => map (fun y => (x, y)) (range 0 GRID_SIZE))
    (range 0 GRID_SIZE).

(** ** Invariants of the search loop *)

(** The cells that can ever receive a cost: the start and the grid cells. *)
Definition universe (start : Cell) : list Cell := start :: all_cells.

Definition cost_weight (st : SearchState) (v : Cell) : nat :=
  match cost_so_far st !! v with
  | Some c => Z.to_nat c
  | None => 401
  end.

Definition is_missing (st : SearchState) (v : Cell) : nat :=
  match cost_so_far st !! v with
  | Some _ => 0
  | None => 1
  end.

Definition potential (start : Cell) (st : SearchState) : nat :=
  sum_list (cost_weight st <$> universe start).

Definition missing (start : Cell) (st : SearchState) : nat :=
  sum_list (is_missing st <$> universe start).

(** What decreases with every iteration of the [while] loop. *)
Definition loop_measure (start : Cell) (st : SearchState) : nat :=
  length (frontier st) + 2 * potential start st.

Record search_inv (grid : Grid) (start goal : Cell) (st : SearchState)
  : Prop := {
  inv_start_cost : cost_so_far st !! start = Some 0;
  inv_start_from : came_from st !! start = Some None;
  inv_dom : forall v,
      came_from st !! v = None <-> cost_so_far st !! v = None;
  inv_pred : forall v c,
      cost_so_far st !! v = Some c -> v <> start ->
      exists u cu,
        came_from st !! v = Some (Some u)
        /\ cost_so_far st !! u = Some cu
        /\ cu + 1 <= c
        /\ wall_free_step grid u v;
  inv_bound : forall v c,
      cost_so_far st !! v = Some c ->
      v ∈ universe start /\ c + Z.of_nat (missing start st) <= 400;
  inv_frontier : forall p x,
      (p, x) ∈ frontier st ->
      exists c, cost_so_far st !! x = Some c /\ c + heuristic goal x <= p;
  inv_walk : forall v c,
      cost_so_far st !! v = Some c ->
      exists n, walk grid start v n /\ Z.of_nat n <= c
}.

(** Every cell with a cost either still has an entry with that cost in the
    frontier, or all its neighbours have been given a cost at most one more.
    While the neighbours of [cur] are being processed, only those in [done]
    are promised for [cur]. *)
Definition closed_except (grid : Grid) (goal : Cell) (st : SearchState)
    (cur : Cell) (done : Cell -> Prop) : Prop :=
  forall u cu,
    cost_so_far st !! u = Some cu ->
    (cu + heuristic goal u, u) ∈ frontier st
    \/ forall w, wall_free_step grid u w -> (u = cur -> done w) ->
         exists cw, cost_so_far st !! w = Some cw /\ cw <= cu + 1.

Definition closed (grid : Grid) (goal : Cell) (st : SearchState) : Prop :=
  forall u cu,
    cost_so_far st !! u = Some cu ->
    (cu + heuristic goal u, u) ∈ frontier st
    \/ forall w, wall_free_step grid u w ->
         exists cw, cost_so_far st !! w = Some cw /\ cw <= cu + 1.

(** The cost of the goal is at most the length of any walk to it. *)
Definition goal_settled (grid : Grid) (start goal : Cell) (st : SearchState)
  : Prop :=
  forall k, walk grid start goal k ->
    exists c, cost_so_far st !! goal = Some c /\ c <= Z.of_nat k.

(** ** Auxiliary notions for the proofs *)



(** What holds of the state the [while] loop ends in. *)
Definition loop_post (grid : Grid) (start goal : Cell) (st : SearchState)
  : Prop :=
  search_inv grid start goal st /\ goal_settled grid start goal st.

(** The state [a_star_search] enters its loop with. *)
Definition initial_state (start : Cell) : SearchState :=
  {| frontier := PriorityQueue_put [] start 0;
     came_from := {[ start := None ]};
     cost_so_far := {[ start := 0 ]} |}.

(** The state after the first pop, which takes the start off the frontier. *)
Definition start_popped (start : Cell) : SearchState :=
  {| frontier := [];
     came_from := {[ start := None ]};
     cost_so_far := {[ start := 0 ]} |}.

(** A 20 x 20 grid in which cell (10, 10) is shut in by walls on its four
    sides (and the border is walled as usual). *)
Definition walled_in_grid : Grid := Eval vm_compute in
  map (fun y => map (fun x =>
     if (x =? 0) || (x =? 19) || (y =? 0) || (y =? 19) then 1
     else if (Z.abs (x - 10) + Z.abs (y - 10) =? 1) then 1 else 0)
     (range 0 20)) (range 0 20).

(** ** Notions for the further properties *)

(** How many cells of a row, and of a grid, hold the value [v]. *)
Fixpoint count_in_row (v : Z) (row : list Z) : nat :=
  match row with
  | [] => 0
  | c :: rest => (if c =? v then 1 else 0) + count_in_row v rest
  end.

Definition count_cells (v : Z) (grid : Grid) : nat :=
  sum_list (count_in_row v <$> grid).

Definition pellet_count (grid : Grid) : nat := count_cells 2 grid.

(** A cell is what it was, or a pellet that became open floor. *)
Definition cell_kept (c' c : Z) : Prop := c' = c \/ (c = 2 /\ c' = 0).

(** [grid'] has the shape of [grid] and every cell of it is kept. *)
Definition grid_kept (grid' grid : Grid) : Prop :=
  Forall2 (Forall2 cell_kept) grid' grid.

(** The four sides of the grid are walls. *)
Definition walled_border (grid : Grid) : Prop :=
  forall i, 0 <= i < GRID_SIZE ->
    grid_get i 0 grid = (Ok 1, grid)
    /\ grid_get i (GRID_SIZE - 1) grid = (Ok 1, grid)
    /\ grid_get 0 i grid = (Ok 1, grid)
    /\ grid_get (GRID_SIZE - 1) i grid = (Ok 1, grid).

(** The position [Player.move] tries to go to. *)
Definition candidate (self : Player.t) : Pos :=
  (Qred (fst (Player.position self)
         + inject_Z (fst (Player.direction self)) * Player.speed self),
   Qred (snd (Player.position self)
         + inject_Z (snd (Player.direction self)) * Player.speed self)).

(** The value [create_grid] gives to cell (x, y): wall on the border and on
    the two inner barriers, pellet everywhere else. *)
Definition maze_cell (x y : Z) : Z :=
  if (x =? 0) || (x =? GRID_SIZE - 1) || (y =? 0) || (y =? GRID_SIZE - 1)
  then 1
  else if ((y =? 5) || (y =? 15)) && (5 <=? x) && (x <? 15) then 1
  else 2.

(** ** sync_paths *)

(** [heuristic] applied to two continuous positions, as [sync_paths] does. *)
Definition heuristic_pos (a b : Pos) : Q :=
  (Qabs (fst a - fst b) + Qabs (snd a - snd b))%Q.

(** [min(l, key=key)]: the first element whose key no other element
    undercuts; ValueError ([None]) on the empty list. *)
Fixpoint min_from {A} (key : A -> Q) (best : A) (l : list A) : A :=
  match l with
  | [] => best
  | a :: l' =>
      if Qltb (key a) (key best) then min_from key a l'
      else min_from key best l'
  end.

Definition py_min {A} (key : A -> Q) (l : list A) : option A :=
  match l with
  | [] => None
  | a :: l' => Some (min_from key a l')
  end.

(** How a call of [sync_paths] ends: normally, on the ValueError of [min]
    over no players, or on whatever stopped [a_star_search]. *)
Inductive sync_status : Type :=
| SyncDone
| SyncValueError
| SyncRaised (e : exn)
| SyncOutOfFuel.

(** The ghosts are objects updated in place, one after the other: the list
    returned holds them as the call left them, also when it stops early. *)
Fixpoint sync_paths (players : list Player.t) (ghosts : list Ghost.t)
    (grid : Grid) : sync_status * list Ghost.t * Grid :=
  match ghosts with
  | [] => (SyncDone, [], grid)
  | ghost :: rest =>
      match py_min (fun player =>
                      heuristic_pos (Ghost.position ghost)
                        (Player.position player)) players with
      | None => (SyncValueError, ghost :: rest, grid)
      | Some closest_player =>
          match a_star_search (Ghost.position ghost)
                  (Player.position closest_player) grid with
          | (Ok path, grid') =>
              let '(status, rest', grid'') := sync_paths players rest grid' in
              (status, Ghost.set_path ghost path :: rest', grid'')
          | (Raise e, grid') => (SyncRaised e, ghost :: rest, grid')
          | (OutOfFuel, grid') => (SyncOutOfFuel, ghost :: rest, grid')
          end
      end
  end.

(** Two ghosts that differ at most in their paths. *)
Definition same_but_path (g' g : Ghost.t) : Prop :=
  Ghost.position g' = Ghost.position g
  /\ Ghost.speed g' = Ghost.speed g
  /\ Ghost.color g' = Ghost.color g
  /\ Ghost.radius g' = Ghost.radius g.

(** [target] is the player [sync_paths] picks for [ghost]: nearest by
    Manhattan distance, the first one of those in list order. *)
Definition nearest_player (players : list Player.t) (ghost : Ghost.t)
    (target : Player.t) : Prop :=
  exists before after,
    players = before ++ target :: after
    /\ (forall p, p ∈ before ->
          (heuristic_pos (Ghost.position ghost) (Player.position target)
           < heuristic_pos (Ghost.position ghost) (Player.position p))%Q)
    /\ (forall p, p ∈ after ->
          (heuristic_pos (Ghost.position ghost) (Player.position target)
           <= heuristic_pos (Ghost.position ghost) (Player.position p))%Q).

(** [g'] is [g] with the path the search returns toward its nearest player. *)
Definition chases (players : list Player.t) (grid : Grid)
    (g' g : Ghost.t) : Prop :=
  exists target path,
    nearest_player players g target
    /\ a_star_search (Ghost.position g) (Player.position target) grid
       = (Ok path, grid)
    /\ g' = Ghost.set_path g path.

(** ** color_selection_menu *)

Definition GOLDEN : Color := (255, 215, 0).
Definition ORANGE : Color := (255, 165, 0).
Definition AVAILABLE_COLORS : list Color := [GREEN; GOLDEN; ORANGE].

(** The pygame events the menu looks at. *)
Inductive key : Type := K_LEFT | K_RIGHT | K_RETURN | K_OTHER.
Inductive event : Type := QUIT | KEYDOWN (k : key) | OTHER_EVENT.

(** How the menu stands after a finite run of events: a colour returned, the
    process exited on QUIT, the menu still open with its current selection,
    or the IndexError that [AVAILABLE_COLORS[selected_color]] could raise. *)
Inductive menu_result : Type :=
| MenuReturn (c : Color)
| MenuExit
| MenuOpen (selected_color : Z)
| MenuIndexError.

(** The event handling of [color_selection_menu], over the events in the
    order [pygame.event.get()] delivers them. *)
Fixpoint menu_events (selected_color : Z) (events : list event) : menu_result :=
  match events with
  | [] => MenuOpen selected_color
  | QUIT :: _ => MenuExit
  | KEYDOWN K_LEFT :: rest =>
      menu_events
        ((selected_color - 1) mod Z.of_nat (length AVAILABLE_COLORS)) rest
  | KEYDOWN K_RIGHT :: rest =>
      menu_events
        ((selected_color + 1) mod Z.of_nat (length AVAILABLE_COLORS)) rest
  | KEYDOWN K_RETURN :: _ =>
      match py_index AVAILABLE_COLORS selected_color with
      | Some c => MenuReturn c
      | None => MenuIndexError
      end
  | KEYDOWN K_OTHER :: rest => menu_events selected_color rest
  | OTHER_EVENT :: rest => menu_events selected_color rest
  end.

Definition color_selection_menu (events : list event) : menu_result :=
  menu_events 0 events.

(** ** One pass of the game loop *)

(** [for player in players: player.move(grid)] *)
Fixpoint move_players (players : list Player.t) : M (list Player.t) :=
  match players with
  | [] => ret []
  | player :: rest =>
      let* player' := Player.move player in
      let* rest' := move_players rest in
      ret (player' :: rest')
  end.

(** How one pass ends: normally, with the loser [check_collision] reports if
    any, or on an exception. *)
Inductive tick_status : Type :=
| TickDone (loser : option string)
| TickValueError
| TickRaised (e : exn)
| TickOutOfFuel.

(** The game logic of one pass of the main loop: the players move, the
    ghosts' paths are refreshed, the ghosts move, the collision test runs.
    Events and rendering are left out. *)
Definition game_tick (players : list Player.t) (ghosts : list Ghost.t)
    (grid : Grid)
  : tick_status * list Player.t * list Ghost.t * Grid :=
  match move_players players grid with
  | (Ok players', grid1) =>
      match sync_paths players' ghosts grid1 with
      | (SyncDone, ghosts', grid2) =>
          let ghosts'' := map (fun ghost => Ghost.move ghost grid2) ghosts' in
          (TickDone (check_collision players' ghosts''),
           players', ghosts'', grid2)
      | (SyncValueError, ghosts', grid2) =>
          (TickValueError, players', ghosts', grid2)
      | (SyncRaised e, ghosts', grid2) =>
          (TickRaised e, players', ghosts', grid2)
      | (SyncOutOfFuel, ghosts', grid2) =>
          (TickOutOfFuel, players', ghosts', grid2)
      end
  | (Raise e, grid1) => (TickRaised e, players, ghosts, grid1)
  | (OutOfFuel, grid1) => (TickOutOfFuel, players, ghosts, grid1)
  end.

(** The sum of the players' scores. *)
Definition total_score (players : list Player.t) : Z :=
  foldr (fun player acc => Player.score player + acc) 0 players.

(** * Properties *)

(** ** Rounding *)

Lemma Qfloor_bounds (q : Q) :
  (inject_Z (Qfloor q) <= q /\ q < inject_Z (Qfloor q) + 1)%Q.
Proof.
  split; [apply Qfloor_le|].
  pose proof (Qlt_floor q) as H. rewrite inject_Z_plus in H. exact H.
Qed.

Lemma inject_Z_le_pred (z f : Z) : z <= f - 1 -> (inject_Z z <= inject_Z f - 1)%Q.
Proof.
  intros H. assert (H' : z + 1 <= f) by lia.
  rewrite Zle_Qle in H'. rewrite inject_Z_plus in H'.
  change (inject_Z 1) with 1%Q in H'. lra.
Qed.

Lemma inject_Z_ge_succ (z f : Z) : f + 1 <= z -> (inject_Z f + 1 <= inject_Z z)%Q.
Proof.
  intros H. rewrite Zle_Qle in H. rewrite inject_Z_plus in H. exact H.
Qed.

Lemma Qabs_cases (x : Q) :
  (0 <= x /\ Qabs x == x)%Q \/ (x <= 0 /\ Qabs x == - x)%Q.
Proof.
  apply (Qabs_case x (fun y => (0 <= x /\ y == x)%Q \/ (x <= 0 /\ y == - x)%Q)).
  - intros H. left. split; [exact H | reflexivity].
  - intros H. right. split; [exact H | reflexivity].
Qed.

(** Case split on the sign under every absolute value in sight, then linear
    arithmetic. *)
Ltac qabs_case_on x :=
  let a := fresh "a" in
  destruct (Qabs_cases x) as [[? ?]|[? ?]];
  set (a := Qabs x) in *; clearbody a.

Ltac qabs_cases :=
  repeat match goal with
  | |- context [Qabs ?x] => qabs_case_on x
  | _ : context [Qabs ?x] |- _ => qabs_case_on x
  end.

Lemma py_round_cases (q : Q) :
  let r := (q - inject_Z (Qfloor q))%Q in
  ((r < 1 # 2)%Q /\ py_round q = Qfloor q)
  \/ ((1 # 2 < r)%Q /\ py_round q = Qfloor q + 1)
  \/ ((r == 1 # 2)%Q /\ Z.even (py_round q) = true
      /\ (py_round q = Qfloor q \/ py_round q = Qfloor q + 1)).
Proof.
  intros r. unfold py_round. fold r.
  destruct (Qcompare r (1 # 2)) eqn:E.
  - right. right. apply Qeq_alt in E. split; [exact E|].
    destruct (Z.even (Qfloor q)) eqn:Ev.
    + split; [exact Ev | left; reflexivity].
    + split; [| right; reflexivity].
      rewrite Z.even_add, Ev. reflexivity.
  - left. apply Qlt_alt in E. split; [exact E | reflexivity].
  - right. left. apply Qgt_alt in E. split; [exact E | reflexivity].
Qed.

(** C5, as the source has it: [round] returns a nearest integer, and when two
    integers are equally near it returns the even one (0.5 goes to 0, 1.5 and
    2.5 go to 2). *)
Theorem py_round_nearest_ties_to_even (q : Q) (z : Z) :
  (Qabs (q - inject_Z (py_round q)) <= Qabs (q - inject_Z z))%Q
  /\ (z <> py_round q ->
      (Qabs (q - inject_Z (py_round q)) == Qabs (q - inject_Z z))%Q ->
      Z.even (py_round q) = true).
Proof.
  pose proof (Qfloor_bounds q) as [Hlo Hhi].
  pose proof (py_round_cases q) as Hc. cbv zeta in Hc.
  assert (Hz : z <= Qfloor q - 1 \/ z = Qfloor q \/ z = Qfloor q + 1
               \/ Qfloor q + 2 <= z) by lia.
  assert (Hf1 : (inject_Z (Qfloor q + 1) == inject_Z (Qfloor q) + 1)%Q)
    by (rewrite inject_Z_plus; reflexivity).
  assert (Hzq : (inject_Z z <= inject_Z (Qfloor q) - 1
                 \/ inject_Z z == inject_Z (Qfloor q)
                 \/ inject_Z z == inject_Z (Qfloor q) + 1
                 \/ inject_Z (Qfloor q) + 2 <= inject_Z z)%Q).
  { destruct Hz as [Hz|[Hz|[Hz|Hz]]].
    - left. apply inject_Z_le_pred. exact Hz.
    - right. left. subst z. reflexivity.
    - right. right. left. subst z. exact Hf1.
    - right. right. right.
      rewrite Zle_Qle in Hz. rewrite inject_Z_plus in Hz. exact Hz. }
  destruct Hc as [[Hr E]|[[Hr E]|[Hr [Ev E]]]].
  - rewrite E. split.
    + qabs_cases; destruct Hzq as [?|[?|[?|?]]]; lra.
    + intros Hne Heq. exfalso.
      assert (Hz' : z <= Qfloor q - 1 \/ Qfloor q + 1 <= z) by lia.
      assert (Hzq' : (inject_Z z <= inject_Z (Qfloor q) - 1
                      \/ inject_Z (Qfloor q) + 1 <= inject_Z z)%Q).
      { destruct Hz' as [Hz'|Hz'];
          [left; apply inject_Z_le_pred | right; apply inject_Z_ge_succ];
          exact Hz'. }
      qabs_cases; destruct Hzq' as [?|?]; lra.
  - rewrite E. split.
    + rewrite Hf1. qabs_cases; destruct Hzq as [?|[?|[?|?]]]; lra.
    + intros Hne Heq. exfalso. rewrite Hf1 in Heq.
      assert (Hz' : z <= Qfloor q \/ Qfloor q + 2 <= z) by lia.
      assert (Hzq' : (inject_Z z <= inject_Z (Qfloor q)
                      \/ inject_Z (Qfloor q) + 2 <= inject_Z z)%Q).
      { destruct Hz' as [Hz'|Hz'].
        - left. rewrite <- Zle_Qle. exact Hz'.
        - right. rewrite Zle_Qle in Hz'. rewrite inject_Z_plus in Hz'.
          exact Hz'. }
      qabs_cases; destruct Hzq' as [?|?]; lra.
  - split; [| intros _ _; exact Ev].
    destruct E as [E|E]; rewrite E; [| rewrite Hf1];
      qabs_cases; destruct Hzq as [?|[?|[?|?]]]; lra.
Qed.

(** Snapping a position with integral coordinates gives those coordinates. *)
Lemma py_round_integral (z : Z) : py_round (inject_Z z) = z.
Proof.
  unfold py_round. rewrite Qfloor_Z.
  assert (E : (inject_Z z - inject_Z z ?= 1 # 2)%Q = Lt).
  { apply (proj1 (Qlt_alt _ _)). lra. }
  rewrite E. reflexivity.
Qed.

Lemma snap_Z2P (c : Cell) : snap (Z2P c) = c.
Proof.
  destruct c as [x y]. unfold snap, Z2P. simpl.
  rewrite !py_round_integral. reflexivity.
Qed.

(** C5, as the claim has it: 0.5 would snap to 1.  It snaps to 0 (and 2.5
    snaps to 2, not 3). *)
Lemma py_round_half_not_away_from_zero :
  py_round (1 # 2) = 0 /\ py_round (1 # 2) <> 1
  /\ py_round (5 # 2) = 2 /\ py_round (5 # 2) <> 3.
Proof. vm_compute. repeat split; congruence. Qed.

Lemma py_round_nearest_ties_to_even_witness :
  (1 <> py_round (1 # 2)
   /\ (Qabs ((1 # 2) - inject_Z (py_round (1 # 2)))
       == Qabs ((1 # 2) - inject_Z 1))%Q)
  /\ Z.even (py_round (1 # 2)) = true.
Proof.
  assert (H1 : 1 <> py_round (1 # 2)) by (vm_compute; discriminate).
  assert (H2 : (Qabs ((1 # 2) - inject_Z (py_round (1 # 2)))
                == Qabs ((1 # 2) - inject_Z 1))%Q) by reflexivity.
  split; [split; [exact H1 | exact H2]|].
  exact (proj2 (py_round_nearest_ties_to_even (1 # 2) 1) H1 H2).
Defined.

(** The examples of the claim that do hold: 1.5 snaps to 2; integers snap to
    themselves. *)
Example py_round_examples :
  py_round (3 # 2) = 2 /\ py_round (-1 # 2) = 0 /\ py_round (-3 # 2) = -2
  /\ py_round 7 = 7 /\ py_round (7 # 10) = 1.
Proof. vm_compute. repeat split. Qed.

(** ** Code that only reads the grid *)

(** [m] never changes the grid, whatever its outcome. *)
Definition preserves {A} (m : M A) : Prop := forall g, snd (m g) = g.

Lemma preserves_ret {A} (a : A) : preserves (ret a).
Proof. intros g. reflexivity. Qed.

Lemma preserves_lift {A} (o : outcome A) : preserves (lift o).
Proof. intros g. reflexivity. Qed.

Lemma preserves_raise {A} (e : exn) : preserves (@raise A e).
Proof. intros g. reflexivity. Qed.

Lemma preserves_out_of_fuel {A} : preserves (@out_of_fuel A).
Proof. intros g. reflexivity. Qed.

Lemma preserves_bind {A B} (m : M A) (k : A -> M B) :
  preserves m -> (forall a, preserves (k a)) -> preserves (bind m k).
Proof.
  intros Hm Hk g. unfold bind. specialize (Hm g).
  destruct (m g) as [[a|e|] g']; simpl in Hm; subst g'; [apply Hk | | ];
    reflexivity.
Qed.

Lemma preserves_grid_get (y x : Z) : preserves (grid_get y x).
Proof.
  intros g. unfold grid_get.
  destruct (py_index g y) as [row|]; [| reflexivity].
  destruct (py_index row x); reflexivity.
Qed.

Lemma preserves_for_each {A S} (l : list A) (body : S -> A -> M S) :
  (forall s a, preserves (body s a)) -> forall s, preserves (for_each l body s).
Proof.
  intros Hb. induction l as [|a l IH]; intros s; simpl.
  - apply preserves_ret.
  - apply preserves_bind; [apply Hb | exact IH].
Qed.

Create HintDb frame.

#[local] Hint Resolve preserves_ret preserves_lift preserves_raise
  preserves_out_of_fuel preserves_grid_get : frame.

Lemma preserves_get_neighbors (pos : Cell) : preserves (get_neighbors pos).
Proof.
  destruct pos as [x y]. unfold get_neighbors.
  apply preserves_for_each. intros neighbors d.
  destruct (in_bounds _); [| auto with frame].
  apply preserves_bind; [auto with frame|].
  intros c. destruct (c =? 1); auto with frame.
Qed.

Lemma preserves_relax (goal current : Cell) (st : SearchState) (n : Cell) :
  preserves (relax goal current st n).
Proof.
  unfold relax. destruct (cost_so_far st !! current); [| auto with frame].
  destruct (match cost_so_far st !! n with
            | Some old => _ | None => _ end); auto with frame.
Qed.

Lemma preserves_search_loop (fuel : nat) (goal : Cell) :
  forall st, preserves (search_loop fuel goal st).
Proof.
  induction fuel as [|fuel IH]; intros st; simpl; [auto with frame|].
  destruct (PriorityQueue_empty _); [auto with frame|].
  apply preserves_bind; [auto with frame|]. intros popped.
  destruct (decide _); [auto with frame|].
  apply preserves_bind; [apply preserves_get_neighbors|]. intros ns.
  apply preserves_bind; [| exact IH].
  apply preserves_for_each. intros s a. apply preserves_relax.
Qed.

(** C10: a call of [a_star_search] leaves the grid as it found it, whether
    it returns a path or stops on an exception. *)
Theorem a_star_search_leaves_grid_unchanged (start goal : Pos) (grid : Grid) :
  snd (a_star_search start goal grid) = grid.
Proof.
  revert grid. change (preserves (a_star_search start goal)).
  unfold a_star_search.
  apply preserves_bind; [apply preserves_search_loop|]. intros st.
  apply preserves_bind; [auto with frame|]. intros path. auto with frame.
Qed.

(** The same for the neighbour generation alone. *)
Lemma get_neighbors_leaves_grid_unchanged (pos : Cell) (grid : Grid) :
  snd (get_neighbors pos grid) = grid.
Proof. apply preserves_get_neighbors. Qed.

(** ** Collecting a pellet *)

Lemma py_norm_index_lt (len i : Z) (n : nat) :
  py_norm_index len i = Some n -> Z.of_nat n < len.
Proof.
  unfold py_norm_index. intros H.
  destruct ((0 <=? i) && (i <? len)) eqn:E1.
  - injection H as <-.
    apply andb_prop in E1 as [? ?]. lia.
  - destruct ((- len <=? i) && (i <? 0)) eqn:E2; [| discriminate].
    injection H as <-.
    apply andb_prop in E2 as [? ?]. lia.
Qed.

Lemma py_index_store {A} (l l' : list A) (i : Z) (a : A) :
  py_store l i a = Some l' -> py_index l' i = Some a /\ length l' = length l.
Proof.
  unfold py_store, py_index. intros H.
  destruct (py_norm_index (Z.of_nat (length l)) i) as [n|] eqn:E;
    [| discriminate].
  injection H as <-. rewrite length_insert, E. split; [| reflexivity].
  apply list_lookup_insert_eq. apply py_norm_index_lt in E. lia.
Qed.

Lemma grid_get_after_set (y x v : Z) (g g' : Grid) :
  grid_set y x v g = (Ok tt, g') -> grid_get y x g' = (Ok v, g').
Proof.
  unfold grid_set, grid_get. intros H.
  destruct (py_index g y) as [row|]; [| discriminate].
  destruct (py_store row x v) as [row'|] eqn:Er; [| discriminate].
  destruct (py_store g y row') as [g1|] eqn:Eg; [| discriminate].
  injection H as <-.
  apply py_index_store in Eg as [-> _].
  apply py_index_store in Er as [-> _]. reflexivity.
Qed.

Lemma grid_set_after_get (y x c v : Z) (g : Grid) :
  grid_get y x g = (Ok c, g) -> exists g', grid_set y x v g = (Ok tt, g').
Proof.
  unfold grid_get, grid_set, py_index, py_store. intros H.
  destruct (py_norm_index (Z.of_nat (length g)) y) as [ny|]; simpl in *;
    [| discriminate H].
  destruct (_ !! ny) as [row|]; simpl in *; [| discriminate H].
  destruct (py_norm_index (Z.of_nat (length row)) x) as [nx|]; simpl in *;
    [| discriminate H].
  eexists. reflexivity.
Qed.

(** C8: a second [collect_pellet] at the same place returns the player and
    the grid it was given (no reward, no change), and a first one on a
    pellet cell awards 10 exactly once. *)
Theorem collect_pellet_twice (self : Player.t) (grid : Grid) :
  (forall self1 grid1,
      Player.collect_pellet self grid = (Ok self1, grid1) ->
      Player.collect_pellet self1 grid1 = (Ok self1, grid1))
  /\ (grid_get (snd (player_cell self)) (fst (player_cell self)) grid
        = (Ok 2, grid) ->
      exists grid1,
        let self1 := Player.set_score self (Player.score self + 10) in
        Player.collect_pellet self grid = (Ok self1, grid1)
        /\ grid_get (snd (player_cell self)) (fst (player_cell self)) grid1
             = (Ok 0, grid1)
        /\ Player.collect_pellet self1 grid1 = (Ok self1, grid1)).
Proof.
  unfold player_cell, snap, Player.collect_pellet, bind, ret. simpl.
  set (x := py_round (fst (Player.position self))).
  set (y := py_round (snd (Player.position self))).
  split.
  - intros self1 grid1 H.
    pose proof (preserves_grid_get y x grid) as Hg.
    destruct (grid_get y x grid) as [[c|e|] g'] eqn:Eget; simpl in Hg;
      subst g'; try discriminate.
    destruct (c =? 2) eqn:Ec.
    + destruct (grid_set y x 0 grid) as [[[]|e|] g'] eqn:Eset;
        try discriminate.
      injection H as <- <-. simpl. fold x y.
      rewrite (grid_get_after_set _ _ _ _ _ Eset). reflexivity.
    + injection H as <- <-. fold x y. rewrite Eget, Ec. reflexivity.
  - intros Hget. rewrite Hget. simpl.
    destruct (grid_set_after_get y x 2 0 grid Hget) as [g' Eset].
    exists g'. rewrite Eset.
    pose proof (grid_get_after_set _ _ _ _ _ Eset) as Hget'.
    simpl. fold x y. rewrite Hget'. simpl. repeat split.
Qed.

Lemma collect_pellet_twice_witness :
  grid_get 1 2 border_grid = (Ok 2, border_grid)
  /\ exists grid1,
       Player.collect_pellet
         (Player.set_position runner_1_1 (2%Q, 1%Q)) border_grid
       = (Ok (Player.set_score
                (Player.set_position runner_1_1 (2%Q, 1%Q)) 10), grid1)
       /\ Player.collect_pellet
            (Player.set_score
               (Player.set_position runner_1_1 (2%Q, 1%Q)) 10) grid1
          = (Ok (Player.set_score
                   (Player.set_position runner_1_1 (2%Q, 1%Q)) 10), grid1).
Proof.
  assert (H : grid_get 1 2 border_grid = (Ok 2, border_grid)) by reflexivity.
  split; [exact H|].
  destruct (proj2 (collect_pellet_twice
                     (Player.set_position runner_1_1 (2%Q, 1%Q)) border_grid)
              H) as (grid1 & H1 & _ & H2).
  exists grid1. split; [exact H1 | exact H2].
Defined.

(** ** The runner scenario *)

(** C6, on the code: with the intent [DIRECTIONS['RIGHT']] = (-1, 0) the
    candidate of the first tick is (0.5, 1), whose cell [int] truncates to the
    wall (0, 1); the move is refused, and so is the second.  The runner is
    still at (1, 1) with score 0 and the pellet at (2, 1) is still there. *)
Theorem runner_right_two_ticks_stays :
  iter_M 2 Player.move runner_1_1 border_grid = (Ok runner_1_1, border_grid)
  /\ Player.direction runner_1_1 = DIRECTIONS_RIGHT
  /\ Player.position runner_1_1 = (1%Q, 1%Q)
  /\ Player.score runner_1_1 = 0
  /\ grid_get 1 2 border_grid = (Ok 2, border_grid).
Proof. vm_compute. repeat split. Qed.

(** The outcome the claim describes is what the code computes for the
    direction stored under ['LEFT'], (1, 0): after two ticks the runner is at
    (2, 1), the pellet is gone and the score is 10. *)
Lemma runner_plus_x_two_ticks :
  iter_M 2 Player.move (Player.change_direction runner_1_1 DIRECTIONS_LEFT)
    border_grid
  = (Ok (Player.set_score
           (Player.set_position
              (Player.change_direction runner_1_1 DIRECTIONS_LEFT)
              (2%Q, 1%Q)) 10),
     border_grid_eaten).
Proof. vm_compute. reflexivity. Qed.

(** Whatever the rest of the grid: a runner at (1, 1) heading
    [DIRECTIONS['RIGHT']] next to a wall at (0, 1) does not move. *)
Lemma runner_right_blocked_by_left_wall (grid : Grid) :
  grid_get 1 0 grid = (Ok 1, grid) ->
  Player.move runner_1_1 grid = (Ok runner_1_1, grid).
Proof.
  intros H. unfold Player.move, Player.is_valid_move, bind. simpl.
  change (py_int (Qred (1 + inject_Z (-1) * (1 # 2)))) with 0.
  change (py_int (Qred (1 + inject_Z 0 * (1 # 2)))) with 1.
  rewrite H. reflexivity.
Qed.

(** ** Construction *)

(** C7, as the source has it: the constructors accept every input and
    validate nothing.  A player or ghost is created at whatever coordinates it
    is given, with the speed fixed by the class (0.5 and 0.1), and
    [create_grid], which takes no size, always builds the same 20 x 20 maze. *)
Theorem construction_never_fails :
  (forall id x y color name,
      exists p, Player.new id x y color name = Ok p
                /\ Player.position p = (x, y)
                /\ Player.speed p = (1 # 2)%Q /\ Player.score p = 0)
  /\ (forall x y color,
      exists g, Ghost.new x y color = Ok g
                /\ Ghost.position g = (x, y)
                /\ Ghost.speed g = (1 # 10)%Q /\ Ghost.path g = [])
  /\ create_grid = Ok the_grid
  /\ length the_grid = 20%nat
  /\ Forall (fun row => length row = 20%nat) the_grid.
Proof.
  split; [| split; [| split; [| split]]].
  - intros. eexists. repeat split.
  - intros. eexists. repeat split.
  - vm_compute. reflexivity.
  - reflexivity.
  - unfold the_grid. repeat constructor.
Qed.

(** C7, as the claim has it: a start cell inside a wall would be refused with
    InvalidConfiguration.  Cell (0, 0) of the maze is a wall, and both
    constructors return an object placed there. *)
Lemma construction_in_wall_succeeds :
  grid_get 0 0 the_grid = (Ok 1, the_grid)
  /\ Player.new 1 0 0 GREEN "Player 1"
     = Ok (Player.__init__ 1 0 0 GREEN "Player 1")
  /\ Player.new 1 0 0 GREEN "Player 1" <> Raise InvalidConfiguration
  /\ Ghost.new 0 0 PURPLE <> Raise InvalidConfiguration.
Proof. repeat split; try discriminate. Qed.

(** ** Capture *)

Lemma Qltb_lt (a b : Q) : Qltb a b = true <-> (a < b)%Q.
Proof.
  unfold Qltb. rewrite Qlt_alt. destruct (a ?= b)%Q; split; congruence.
Qed.

Lemma Qsquare_nonneg (a : Q) : (0 <= a * a)%Q.
Proof.
  destruct a as [n d]. unfold Qle. simpl. rewrite Z.mul_1_r.
  apply Z.square_nonneg.
Qed.







(** Both sides of the threshold on the x axis: 0.5 apart is no capture,
    0.49 apart is. *)
Example check_collision_boundary :
  let player := Player.__init__ 1 1 1 GREEN "Player 1" in
  check_collision [player] [Ghost.__init__ (3 # 2) 1 PURPLE] = None
  /\ check_collision [player] [Ghost.__init__ (149 # 100) 1 PURPLE]
     = Some "Player 1"%string.
Proof. vm_compute. split; reflexivity. Qed.

(** ** Path-driven motion *)

Lemma Qltb_false (a b : Q) : Qltb a b = false <-> ~ (a < b)%Q.
Proof.
  rewrite <- Qltb_lt. destruct (Qltb a b); split; congruence.
Qed.

Section GhostStep.

Variables (self : Ghost.t) (grid : Grid) (next_pos : Cell) (rest : list Cell).
Hypothesis Hpath : Ghost.path self = next_pos :: rest.

Let px : Q := fst (Ghost.position self).
Let py : Q := snd (Ghost.position self).
Let tx : Q := inject_Z (fst next_pos).
Let ty : Q := inject_Z (snd next_pos).
Let s : Q := Ghost.speed self.

(** One call of [Ghost.move] on a non-empty path: the candidate position is
    [position + speed * (next_pos - position)] on each axis; within 0.1 of the
    waypoint on both axes the ghost lands on it and drops it from the path,
    otherwise the candidate is the new position. *)
Lemma ghost_move_spec :
  let cx := (px + s * (tx - px))%Q in
  let cy := (py + s * (ty - py))%Q in
  let arrived := (Qabs (cx - tx) < 1 # 10 /\ Qabs (cy - ty) < 1 # 10)%Q in
  Ghost.speed (Ghost.move self grid) = s
  /\ ((arrived
       /\ Ghost.position (Ghost.move self grid) = Z2P next_pos
       /\ Ghost.path (Ghost.move self grid) = rest)
      \/ (~ arrived
          /\ (fst (Ghost.position (Ghost.move self grid)) == cx)%Q
          /\ (snd (Ghost.position (Ghost.move self grid)) == cy)%Q
          /\ Ghost.path (Ghost.move self grid) = next_pos :: rest)).
Proof.
  intros cx cy arrived. unfold Ghost.move. rewrite Hpath.
  fold px py tx ty s.
  assert (Ex : (Qred (px + s * (tx - px)) == cx)%Q) by apply Qred_correct.
  assert (Ey : (Qred (py + s * (ty - py)) == cy)%Q) by apply Qred_correct.
  destruct (Qltb (Qabs (Qred (px + s * (tx - px)) - tx)) (1 # 10)) eqn:E1;
    [destruct (Qltb (Qabs (Qred (py + s * (ty - py)) - ty)) (1 # 10)) eqn:E2|];
    simpl.
  - split; [reflexivity|]. left.
    apply Qltb_lt in E1, E2. rewrite Ex in E1. rewrite Ey in E2.
    repeat split; assumption.
  - split; [reflexivity|]. right.
    apply Qltb_false in E2. rewrite Ey in E2.
    split; [intros [_ H]; exact (E2 H)|]. repeat split; assumption.
  - split; [reflexivity|]. right.
    apply Qltb_false in E1. rewrite Ex in E1.
    split; [intros [H _]; exact (E1 H)|]. repeat split; assumption.
Qed.

End GhostStep.

(** C2, as the source has it: one tick moves each coordinate by
    [speed * (waypoint - position)], an amount proportional to the remaining
    offset (and lands exactly on the waypoint once that brings both axes
    within 0.1 of it). *)
Theorem ghost_move_proportional
    (self : Ghost.t) (grid : Grid) (next_pos : Cell) (rest : list Cell) :
  Ghost.path self = next_pos :: rest ->
  let px := fst (Ghost.position self) in
  let py := snd (Ghost.position self) in
  let tx := inject_Z (fst next_pos) in
  let ty := inject_Z (snd next_pos) in
  let cx := (px + Ghost.speed self * (tx - px))%Q in
  let cy := (py + Ghost.speed self * (ty - py))%Q in
  let arrived := (Qabs (cx - tx) < 1 # 10 /\ Qabs (cy - ty) < 1 # 10)%Q in
  (arrived ->
     Ghost.position (Ghost.move self grid) = Z2P next_pos
     /\ Ghost.path (Ghost.move self grid) = rest)
  /\ (~ arrived ->
     (fst (Ghost.position (Ghost.move self grid)) == cx)%Q
     /\ (snd (Ghost.position (Ghost.move self grid)) == cy)%Q
     /\ Ghost.path (Ghost.move self grid) = next_pos :: rest).
Proof.
  intros Hpath px py tx ty cx cy arrived.
  destruct (ghost_move_spec self grid next_pos rest Hpath)
    as [_ [(Ha & Hp & Hr)|(Hn & Hx & Hy & Hr)]].
  - split; [intros _; split; assumption | intros Hn; exact (False_ind _ (Hn Ha))].
  - split; [intros Ha; exact (False_ind _ (Hn Ha))|].
    intros _. repeat split; assumption.
Qed.

Lemma ghost_move_proportional_witness :
  Ghost.path ghost_10_10 = [(11, 10)]
  /\ (fst (Ghost.position (Ghost.move ghost_10_10 the_grid)) == 101 # 10)%Q.
Proof.
  split; [reflexivity|].
  pose proof (ghost_move_proportional ghost_10_10 the_grid (11, 10) []
                eq_refl) as [_ H].
  destruct H as [Hx _]; [| rewrite Hx; reflexivity].
  intros [H _]. vm_compute in H. discriminate H.
Defined.

(** C2, as the claim has it: every tick would change a coordinate by exactly
    the speed.  From (10, 10) toward (11, 10) at speed 0.1 the first tick
    moves x by 0.1, the second by 0.09 = 0.1 * (11 - 10.1). *)
Lemma ghost_second_tick_moves_less_than_speed :
  let g1 := Ghost.move ghost_10_10 the_grid in
  let g2 := Ghost.move g1 the_grid in
  Ghost.speed g1 = (1 # 10)%Q
  /\ Ghost.path g1 = [(11, 10)]
  /\ Ghost.position g1 = ((101 # 10)%Q, 10%Q)
  /\ Ghost.position g2 = ((1019 # 100)%Q, 10%Q)
  /\ ~ (fst (Ghost.position g2) - fst (Ghost.position g1)
        == Ghost.speed g1)%Q
  /\ (fst (Ghost.position g2) - fst (Ghost.position g1)
      == Ghost.speed g1 * (11 - fst (Ghost.position g1)))%Q.
Proof.
  vm_compute. repeat split; try reflexivity. intros H. discriminate H.
Qed.

(** ** Waypoint convergence *)





Lemma decay_nonneg (s : Q) (k : nat) : (0 <= s <= 1)%Q -> (0 <= decay s k)%Q.
Proof.
  intros Hs. induction k as [|k IH]; simpl; [lra | nra].
Qed.

Lemma decay_add_1 (s : Q) (j : nat) :
  decay s (j + 1) = ((1 - s) * decay s j)%Q.
Proof. rewrite Nat.add_1_r. reflexivity. Qed.

Section Approach.

Variables (grid : Grid) (s : Q) (w : Cell) (r : list Cell).
Hypothesis Hs : (0 < s <= 1)%Q.




End Approach.







(** ** Reading a well-formed grid *)

Lemma py_norm_index_in_range (len i : Z) :
  0 <= i < len -> py_norm_index len i = Some (Z.to_nat i).
Proof.
  intros H. unfold py_norm_index.
  destruct (0 <=? i) eqn:E1; [| lia].
  destruct (i <? len) eqn:E2; [reflexivity | lia].
Qed.

Lemma grid_get_in_bounds (grid : Grid) (b : Cell) :
  wf_grid grid -> in_bounds b = true ->
  exists c, grid_get (snd b) (fst b) grid = (Ok c, grid).
Proof.
  intros [Hlen Hrows] Hb. unfold in_bounds, GRID_SIZE in Hb.
  destruct b as [x y]. simpl in *.
  assert (Hx : 0 <= x < 20) by lia. assert (Hy : 0 <= y < 20) by lia.
  unfold grid_get, py_index. rewrite Hlen.
  rewrite (py_norm_index_in_range _ y) by lia.
  destruct (lookup_lt_is_Some_2 grid (Z.to_nat y)) as [row Hrow]; [lia|].
  rewrite Hrow.
  assert (Hr : length row = 20%nat).
  { rewrite Forall_forall in Hrows. apply Hrows.
    eapply list_elem_of_lookup_2. exact Hrow. }
  rewrite Hr. rewrite (py_norm_index_in_range _ x) by lia.
  destruct (lookup_lt_is_Some_2 row (Z.to_nat x)) as [c Hc]; [lia|].
  rewrite Hc. eauto.
Qed.

(** ** get_neighbors on a well-formed grid *)

Lemma unit_step_offsets (a b : Cell) :
  unit_step a b <->
  exists d, d ∈ NEIGHBOR_OFFSETS /\ b = (fst a + fst d, snd a + snd d).
Proof.
  unfold unit_step, NEIGHBOR_OFFSETS. destruct a as [ax ay], b as [bx by_].
  simpl. split.
  - intros H.
    assert (C : (bx = ax /\ by_ = ay + 1) \/ (bx = ax + 1 /\ by_ = ay)
                \/ (bx = ax /\ by_ = ay - 1) \/ (bx = ax - 1 /\ by_ = ay))
      by lia.
    destruct C as [[-> ->]|[[-> ->]|[[-> ->]|[-> ->]]]].
    + exists (0, 1). split; [set_solver | simpl; f_equal; lia].
    + exists (1, 0). split; [set_solver | simpl; f_equal; lia].
    + exists (0, -1). split; [set_solver | simpl; f_equal; lia].
    + exists (-1, 0). split; [set_solver | simpl; f_equal; lia].
  - intros (d & Hd & E).
    repeat (apply elem_of_cons in Hd as [->|Hd]);
      try (simpl in E; injection E as -> ->; lia).
    inversion Hd.
Qed.

Section Neighbors.

Variable grid : Grid.
Hypothesis Hwf : wf_grid grid.

Lemma neighbors_loop (x y : Z) (offs : list (Z * Z)) :
  forall acc : list Cell,
  exists ns,
    for_each offs
      (fun neighbors d =>
         let nx := x + fst d in
         let ny := y + snd d in
         if in_bounds (nx, ny) then
           let* c := grid_get ny nx in
           if c =? 1 then ret neighbors else ret (neighbors ++ [(nx, ny)])
         else ret neighbors)
      acc grid = (Ok ns, grid)
    /\ forall b, b ∈ ns <->
         b ∈ acc
         \/ exists d, d ∈ offs /\ b = (x + fst d, y + snd d)
                      /\ open_cell grid b.
Proof.
  induction offs as [|d offs IH]; intros acc; simpl.
  - exists acc. split; [reflexivity|]. intros b. split; [auto|].
    intros [H|(d & Hd & _)]; [exact H | inversion Hd].
  - unfold bind at 1.
    destruct (in_bounds (x + fst d, y + snd d)) eqn:Eb.
    + destruct (grid_get_in_bounds grid _ Hwf Eb) as [c Hc]. simpl in Hc.
      unfold bind at 1. rewrite Hc.
      destruct (c =? 1) eqn:Ec; simpl.
      * destruct (IH acc) as (ns & Hns & Hiff). exists ns.
        split; [exact Hns|]. intros b. rewrite Hiff. split.
        -- intros [H|(d' & Hd' & E & Ho)]; [auto|].
           right. exists d'. split; [right; exact Hd' | auto].
        -- intros [H|(d' & Hd' & E & Ho)]; [auto|].
           apply elem_of_cons in Hd' as [->|Hd']; [| right; eauto].
           exfalso. subst b. destruct Ho as [_ (c' & Hc' & Hne)].
           simpl in Hc'. rewrite Hc in Hc'. injection Hc' as <-. lia.
      * destruct (IH (acc ++ [(x + fst d, y + snd d)])) as (ns & Hns & Hiff).
        exists ns. split; [exact Hns|]. intros b. rewrite Hiff.
        rewrite elem_of_app, list_elem_of_singleton. split.
        -- intros [[H| ->]|(d' & Hd' & E & Ho)]; [auto | | ].
           ++ right. exists d. split; [left|]. split; [reflexivity|].
              split; [exact Eb|]. exists c. simpl. split; [exact Hc | lia].
           ++ right. exists d'. split; [right; exact Hd' | auto].
        -- intros [H|(d' & Hd' & E & Ho)]; [auto|].
           apply elem_of_cons in Hd' as [->|Hd']; [auto | right; eauto].
    + simpl. destruct (IH acc) as (ns & Hns & Hiff). exists ns.
      split; [exact Hns|]. intros b. rewrite Hiff. split.
      * intros [H|(d' & Hd' & E & Ho)]; [auto|].
        right. exists d'. split; [right; exact Hd' | auto].
      * intros [H|(d' & Hd' & E & Ho)]; [auto|].
        apply elem_of_cons in Hd' as [->|Hd']; [| right; eauto].
        exfalso. subst b. destruct Ho as [Ho _]. congruence.
Qed.

(** On a well-formed grid [get_neighbors] returns normally, does not touch
    the grid, and lists exactly the cells one wall-free step away. *)
Lemma get_neighbors_spec (pos : Cell) :
  exists ns,
    get_neighbors pos grid = (Ok ns, grid)
    /\ forall b, b ∈ ns <-> wall_free_step grid pos b.
Proof.
  destruct pos as [x y]. unfold get_neighbors.
  destruct (neighbors_loop x y NEIGHBOR_OFFSETS []) as (ns & Hns & Hiff).
  exists ns. split; [exact Hns|]. intros b. rewrite Hiff.
  unfold wall_free_step. rewrite unit_step_offsets. simpl. split.
  - intros [H|(d & Hd & E & Ho)]; [inversion H|]. split; [eauto | exact Ho].
  - intros [(d & Hd & E) Ho]. right. eauto.
Qed.

End Neighbors.

(** ** Walks *)

Lemma walk_snoc (grid : Grid) (a b c : Cell) (n : nat) :
  walk grid a b n -> wall_free_step grid b c -> walk grid a c (S n).
Proof.
  intros H Hs. induction H as [a|a b' b n Hab _ IH].
  - eapply walk_step; [exact Hs | apply walk_here].
  - eapply walk_step; [exact Hab | apply IH, Hs].
Qed.

Lemma last_cons (path : list Cell) :
  forall a b, List.last (b :: path) a = List.last path b.
Proof.
  induction path as [|c path IH]; intros a b; [reflexivity|].
  change (List.last (b :: c :: path) a) with (List.last (c :: path) a).
  rewrite (IH a c), (IH b c). reflexivity.
Qed.

Lemma is_walk_snoc (grid : Grid) (path : list Cell) :
  forall a c,
    is_walk grid a path -> wall_free_step grid (List.last path a) c ->
    is_walk grid a (path ++ [c]).
Proof.
  induction path as [|b path IH]; intros a c Hw Hs.
  - split; [exact Hs | exact I].
  - destruct Hw as [Hab Hw]. rewrite last_cons in Hs.
    split; [exact Hab | apply IH; assumption].
Qed.

Lemma is_walk_walk (grid : Grid) (path : list Cell) :
  forall a,
    is_walk grid a path -> walk grid a (List.last path a) (length path).
Proof.
  induction path as [|b path IH]; intros a Hw.
  - apply walk_here.
  - destruct Hw as [Hab Hw]. rewrite last_cons.
    eapply walk_step; [exact Hab | apply IH, Hw].
Qed.

(** The Manhattan heuristic never exceeds the number of steps left. *)
Lemma heuristic_admissible (grid : Grid) (goal u : Cell) (n : nat) :
  walk grid u goal n -> heuristic goal u <= Z.of_nat n.
Proof.
  intros H. induction H as [a|a b c n [Hab _] _ IH].
  - unfold heuristic. lia.
  - unfold heuristic, unit_step in *. lia.
Qed.

(** ** The priority queue *)

Lemma pop_min_spec (l : list Entry) (m : Entry) (r : list Entry) :
  pop_min l = Some (m, r) ->
  (forall e, e ∈ l <-> e = m \/ e ∈ r)
  /\ (forall e, e ∈ l -> fst m <= fst e)
  /\ length l = S (length r).
Proof.
  revert m r. induction l as [|e l IH]; intros m r H; simpl in H;
    [discriminate|].
  destruct (pop_min l) as [[m' r']|] eqn:E.
  - destruct (IH m' r' eq_refl) as (Hin & Hmin & Hlen).
    destruct (entry_leb e m') eqn:El; injection H as <- <-.
    + split; [intros x; rewrite elem_of_cons; tauto|].
      split; [| reflexivity].
      intros x Hx. apply elem_of_cons in Hx as [->|Hx]; [lia|].
      specialize (Hmin x Hx). unfold entry_leb in El. lia.
    + split.
      * intros x. rewrite !elem_of_cons, Hin. tauto.
      * split; [| simpl; lia].
        intros x Hx. apply elem_of_cons in Hx as [->|Hx]; [| auto].
        unfold entry_leb in El. lia.
  - injection H as <- <-. destruct l; [| simpl in E;
      destruct (pop_min l) as [[? ?]|]; [destruct (entry_leb _ _)|];
      discriminate].
    split; [intros x; rewrite elem_of_cons; tauto|].
    split; [| reflexivity].
    intros x Hx. apply elem_of_cons in Hx as [->|Hx]; [lia | inversion Hx].
Qed.

Lemma pop_min_nonempty (l : list Entry) :
  PriorityQueue_empty l = false -> exists m r, pop_min l = Some (m, r).
Proof.
  destruct l as [|e l]; [discriminate|]. intros _. simpl.
  destruct (pop_min l) as [[m r]|]; [destruct (entry_leb e m)|]; eauto.
Qed.

(** ** Sums over the universe *)

Lemma sum_list_fmap_le {A} (f g : A -> nat) (l : list A) :
  (forall x, x ∈ l -> (f x <= g x)%nat) ->
  (sum_list (f <$> l) <= sum_list (g <$> l))%nat.
Proof.
  induction l as [|a l IH]; intros H; [reflexivity|].
  change (f a + sum_list (f <$> l) <= g a + sum_list (g <$> l))%nat.
  assert (f a <= g a)%nat by (apply H; left).
  assert (sum_list (f <$> l) <= sum_list (g <$> l))%nat
    by (apply IH; intros x Hx; apply H; right; exact Hx).
  lia.
Qed.

Lemma sum_list_fmap_lt {A} (f g : A -> nat) (l : list A) (x : A) :
  (forall y, y ∈ l -> (f y <= g y)%nat) ->
  x ∈ l -> (f x < g x)%nat ->
  (sum_list (f <$> l) < sum_list (g <$> l))%nat.
Proof.
  induction l as [|a l IH]; intros H Hx Hlt; [inversion Hx|].
  change (f a + sum_list (f <$> l) < g a + sum_list (g <$> l))%nat.
  assert (Hl : (sum_list (f <$> l) <= sum_list (g <$> l))%nat)
    by (apply sum_list_fmap_le; intros y Hy; apply H; right; exact Hy).
  assert (Ha : (f a <= g a)%nat) by (apply H; left).
  apply elem_of_cons in Hx as [->|Hx]; [lia|].
  assert (sum_list (f <$> l) < sum_list (g <$> l))%nat
    by (apply IH; [intros y Hy; apply H; right; exact Hy | exact Hx | exact Hlt]).
  lia.
Qed.

Lemma sum_list_fmap_bound {A} (f : A -> nat) (K : nat) (l : list A) :
  (forall x, x ∈ l -> (f x <= K)%nat) ->
  (sum_list (f <$> l) <= K * length l)%nat.
Proof.
  induction l as [|a l IH]; intros H; [simpl; lia|].
  change (f a + sum_list (f <$> l) <= K * S (length l))%nat.
  assert (f a <= K)%nat by (apply H; left).
  assert (sum_list (f <$> l) <= K * length l)%nat
    by (apply IH; intros x Hx; apply H; right; exact Hx).
  lia.
Qed.

Lemma range_elem (a b x : Z) : a <= x < b -> x ∈ range a b.
Proof.
  intros H. unfold range. apply list_elem_of_In, in_map_iff.
  exists (Z.to_nat (x - a)). split; [lia|]. apply in_seq. lia.
Qed.

Lemma in_bounds_all_cells (c : Cell) : in_bounds c = true -> c ∈ all_cells.
Proof.
  intros H. unfold in_bounds, GRID_SIZE in H. destruct c as [x y].
  simpl in H. unfold all_cells, GRID_SIZE.
  apply list_elem_of_In, in_flat_map. exists x.
  split; [apply list_elem_of_In, range_elem; lia|].
  apply in_map_iff. exists y.
  split; [reflexivity | apply list_elem_of_In, range_elem; lia].
Qed.

Lemma universe_length (start : Cell) : length (universe start) = 401%nat.
Proof. reflexivity. Qed.

(** ** One relaxation *)

Section SearchProof.

Variables (grid : Grid) (start goal : Cell).
Hypothesis Hwf : wf_grid grid.

Lemma inv_cost_nonneg (st : SearchState) (v : Cell) (c : Z) :
  search_inv grid start goal st -> cost_so_far st !! v = Some c -> 0 <= c.
Proof.
  intros Hinv Hc. destruct (inv_walk _ _ _ _ Hinv v c Hc) as (n & _ & Hn). lia.
Qed.

Section Update.

Variables (st : SearchState) (cur n : Cell) (ccur : Z).
Hypothesis Hinv : search_inv grid start goal st.
Hypothesis Hcur : cost_so_far st !! cur = Some ccur.
Hypothesis Hstep : wall_free_step grid cur n.
Hypothesis Hupd :
  cost_so_far st !! n = None
  \/ exists old, cost_so_far st !! n = Some old /\ ccur + 1 < old.

Let st' : SearchState :=
  {| cost_so_far := <[n := ccur + 1]> (cost_so_far st);
     frontier := PriorityQueue_put (frontier st) n
                   (ccur + 1 + heuristic goal n);
     came_from := <[n := Some cur]> (came_from st) |}.

Lemma update_ccur_nonneg : 0 <= ccur.
Proof. exact (inv_cost_nonneg st cur ccur Hinv Hcur). Qed.

Lemma update_not_start : n <> start.
Proof.
  intros ->. pose proof update_ccur_nonneg.
  rewrite (inv_start_cost _ _ _ _ Hinv) in Hupd.
  destruct Hupd as [H0|(old & H0 & Hlt)]; [discriminate | injection H0 as <-].
  lia.
Qed.

Lemma update_not_cur : n <> cur.
Proof.
  intros ->. rewrite Hcur in Hupd.
  destruct Hupd as [H0|(old & H0 & Hlt)]; [discriminate | injection H0 as <-].
  lia.
Qed.

Lemma update_in_universe : n ∈ universe start.
Proof.
  right. apply in_bounds_all_cells. destruct Hstep as [_ [Hb _]]. exact Hb.
Qed.

Lemma update_missing_le : (missing start st' <= missing start st)%nat.
Proof.
  apply sum_list_fmap_le. intros v _. unfold is_missing. simpl.
  destruct (decide (v = n)) as [->|Hne].
  - rewrite lookup_insert_eq. lia.
  - rewrite lookup_insert_ne by congruence. reflexivity.
Qed.

Lemma update_missing_lt :
  cost_so_far st !! n = None -> (missing start st' < missing start st)%nat.
Proof.
  intros Hn. apply (sum_list_fmap_lt _ _ _ n).
  - intros v _. unfold is_missing. simpl.
    destruct (decide (v = n)) as [->|Hne].
    + rewrite lookup_insert_eq. lia.
    + rewrite lookup_insert_ne by congruence. reflexivity.
  - exact update_in_universe.
  - unfold is_missing. simpl. rewrite lookup_insert_eq, Hn. lia.
Qed.

Lemma update_new_cost_bound :
  ccur + 1 + Z.of_nat (missing start st') <= 400.
Proof.
  destruct (inv_bound _ _ _ _ Hinv cur ccur Hcur) as [_ Hb].
  destruct Hupd as [Hn|(old & Hn & Hlt)].
  - pose proof (update_missing_lt Hn). lia.
  - destruct (inv_bound _ _ _ _ Hinv n old Hn) as [_ Hb'].
    pose proof update_missing_le. lia.
Qed.

Lemma update_potential : (potential start st' < potential start st)%nat.
Proof.
  apply (sum_list_fmap_lt _ _ _ n).
  - intros v _. unfold cost_weight. simpl.
    destruct (decide (v = n)) as [->|Hne].
    + rewrite lookup_insert_eq. pose proof update_new_cost_bound.
      destruct Hupd as [Hn|(old & Hn & Hlt)]; rewrite Hn; lia.
    + rewrite lookup_insert_ne by congruence. reflexivity.
  - exact update_in_universe.
  - unfold cost_weight. simpl. rewrite lookup_insert_eq.
    pose proof update_new_cost_bound. pose proof update_ccur_nonneg.
    destruct Hupd as [Hn|(old & Hn & Hlt)]; rewrite Hn; lia.
Qed.

Lemma update_measure :
  (loop_measure start st' <= loop_measure start st)%nat.
Proof.
  unfold loop_measure. pose proof update_potential.
  change (length (frontier st')) with (S (length (frontier st))). lia.
Qed.

Lemma update_inv : search_inv grid start goal st'.
Proof.
  pose proof update_not_start as Hns. pose proof update_not_cur as Hnc.
  pose proof update_ccur_nonneg as Hc0.
  constructor; simpl.
  - rewrite lookup_insert_ne by congruence. apply (inv_start_cost _ _ _ _ Hinv).
  - rewrite lookup_insert_ne by congruence. apply (inv_start_from _ _ _ _ Hinv).
  - intros v. destruct (decide (v = n)) as [->|Hne].
    + rewrite !lookup_insert_eq. split; discriminate.
    + rewrite !lookup_insert_ne by congruence. apply (inv_dom _ _ _ _ Hinv).
  - intros v c Hv Hvs. destruct (decide (v = n)) as [->|Hne].
    + rewrite lookup_insert_eq in Hv. injection Hv as <-.
      exists cur, ccur. rewrite lookup_insert_eq.
      rewrite lookup_insert_ne by congruence.
      split; [reflexivity|]. split; [exact Hcur|]. split; [lia | exact Hstep].
    + rewrite lookup_insert_ne in Hv by congruence.
      destruct (inv_pred _ _ _ _ Hinv v c Hv Hvs) as (u & cu & Hf & Hu & Hle & Hs).
      rewrite lookup_insert_ne by congruence.
      destruct (decide (u = n)) as [->|Hun].
      * exists n, (ccur + 1). rewrite lookup_insert_eq.
        split; [exact Hf|]. split; [reflexivity|]. split; [| exact Hs].
        rewrite Hu in Hupd.
        destruct Hupd as [H0|(old & H0 & Hlt)]; [discriminate|].
        injection H0 as <-. lia.
      * exists u, cu. rewrite lookup_insert_ne by congruence. auto.
  - intros v c Hv. pose proof update_missing_le as Hm.
    destruct (decide (v = n)) as [->|Hne].
    + rewrite lookup_insert_eq in Hv. injection Hv as <-.
      split; [exact update_in_universe | exact update_new_cost_bound].
    + rewrite lookup_insert_ne in Hv by congruence.
      destruct (inv_bound _ _ _ _ Hinv v c Hv) as [Hu Hb].
      split; [exact Hu | lia].
  - intros p x Hx. unfold PriorityQueue_put in Hx.
    apply elem_of_cons in Hx as [Hx|Hx].
    + injection Hx as -> ->. exists (ccur + 1).
      rewrite lookup_insert_eq. split; [reflexivity | lia].
    + destruct (inv_frontier _ _ _ _ Hinv p x Hx) as (c & Hc & Hle).
      destruct (decide (x = n)) as [->|Hne].
      * exists (ccur + 1). rewrite lookup_insert_eq. split; [reflexivity|].
        rewrite Hc in Hupd.
        destruct Hupd as [H0|(old & H0 & Hlt)]; [discriminate|].
        injection H0 as <-. lia.
      * exists c. rewrite lookup_insert_ne by congruence. auto.
  - intros v c Hv. destruct (decide (v = n)) as [->|Hne].
    + rewrite lookup_insert_eq in Hv. injection Hv as <-.
      destruct (inv_walk _ _ _ _ Hinv cur ccur Hcur) as (m & Hw & Hm).
      exists (S m). split; [eapply walk_snoc; eassumption | lia].
    + rewrite lookup_insert_ne in Hv by congruence.
      apply (inv_walk _ _ _ _ Hinv v c Hv).
Qed.

Lemma update_closed (done : Cell -> Prop) :
  closed_except grid goal st cur done ->
  closed_except grid goal st' cur (fun w => done w \/ w = n).
Proof.
  intros Hcl u cu Hu. simpl in Hu.
  destruct (decide (u = n)) as [->|Hun].
  - rewrite lookup_insert_eq in Hu. injection Hu as <-. left. simpl. left.
  - rewrite lookup_insert_ne in Hu by congruence.
    destruct (Hcl u cu Hu) as [Hf|Hr].
    + left. simpl. right. exact Hf.
    + right. intros w Hw Hd. simpl.
      destruct (decide (w = n)) as [->|Hwn].
      * exists (ccur + 1). rewrite lookup_insert_eq. split; [reflexivity|].
        destruct (decide (u = cur)) as [->|Huc].
        -- rewrite Hcur in Hu. injection Hu as <-. lia.
        -- destruct (Hr n Hw) as (cw & Hcw & Hle); [intros E; contradiction|].
           rewrite Hcw in Hupd.
           destruct Hupd as [H0|(old & H0 & Hlt)]; [discriminate|].
           injection H0 as <-. lia.
      * rewrite lookup_insert_ne by congruence. apply Hr; [exact Hw|].
        intros E. destruct (Hd E) as [H|H]; [exact H | contradiction].
Qed.

End Update.

(** A relaxation keeps the invariant, records the neighbour as processed and
    does not increase the measure. *)
Lemma relax_preserves (st : SearchState) (cur n : Cell) (ccur : Z)
    (done : Cell -> Prop) :
  search_inv grid start goal st ->
  closed_except grid goal st cur done ->
  cost_so_far st !! cur = Some ccur ->
  wall_free_step grid cur n ->
  exists st1,
    relax goal cur st n grid = (Ok st1, grid)
    /\ search_inv grid start goal st1
    /\ closed_except grid goal st1 cur (fun w => done w \/ w = n)
    /\ cost_so_far st1 !! cur = Some ccur
    /\ (loop_measure start st1 <= loop_measure start st)%nat.
Proof.
  intros Hinv Hcl Hcur Hstep. unfold relax. rewrite Hcur.
  assert (Hupdate :
    (cost_so_far st !! n = None
     \/ exists old, cost_so_far st !! n = Some old /\ ccur + 1 < old) ->
    exists st1,
      ret {| cost_so_far := <[n := ccur + 1]> (cost_so_far st);
             frontier := PriorityQueue_put (frontier st) n
                           (ccur + 1 + heuristic goal n);
             came_from := <[n := Some cur]> (came_from st) |} grid
      = (Ok st1, grid)
      /\ search_inv grid start goal st1
      /\ closed_except grid goal st1 cur (fun w => done w \/ w = n)
      /\ cost_so_far st1 !! cur = Some ccur
      /\ (loop_measure start st1 <= loop_measure start st)%nat).
  { intros Hupd. eexists. split; [reflexivity|].
    split; [eapply update_inv; eassumption|].
    split; [eapply update_closed; eassumption|].
    split; [| eapply update_measure; eassumption].
    simpl. rewrite lookup_insert_ne; [exact Hcur|].
    eapply update_not_cur; eassumption. }
  destruct (cost_so_far st !! n) as [old|] eqn:En.
  - destruct (ccur + 1 <? old) eqn:Elt.
    + apply Hupdate. right. exists old. split; [reflexivity | lia].
    + exists st. split; [reflexivity|]. split; [exact Hinv|].
      split; [| split; [exact Hcur | lia]].
      intros u cu Hu. destruct (Hcl u cu Hu) as [Hf|Hr]; [left; exact Hf|].
      right. intros w Hw Hd.
      destruct (decide (u = cur /\ w = n)) as [[-> ->]|Hno].
      * exists old. rewrite Hcur in Hu. injection Hu as <-.
        split; [exact En | lia].
      * apply Hr; [exact Hw|]. intros E. destruct (Hd E) as [H|H];
          [exact H | exfalso; apply Hno; split; assumption].
  - apply Hupdate. left. reflexivity.
Qed.


(** ** The loop over the neighbours *)

Lemma closed_except_mono (st : SearchState) (cur : Cell)
    (D D' : Cell -> Prop) :
  (forall w, D' w -> D w) ->
  closed_except grid goal st cur D -> closed_except grid goal st cur D'.
Proof.
  intros Hsub Hcl u cu Hu. destruct (Hcl u cu Hu) as [Hf|Hr]; [left; exact Hf|].
  right. intros w Hw Hd. apply Hr; [exact Hw|]. intros E. apply Hsub, Hd, E.
Qed.

Lemma relax_all (cur : Cell) (ccur : Z) (ns : list Cell) :
  forall (st : SearchState) (done : Cell -> Prop),
    search_inv grid start goal st ->
    closed_except grid goal st cur done ->
    cost_so_far st !! cur = Some ccur ->
    (forall n, n ∈ ns -> wall_free_step grid cur n) ->
    exists st1,
      for_each ns (relax goal cur) st grid = (Ok st1, grid)
      /\ search_inv grid start goal st1
      /\ closed_except grid goal st1 cur (fun w => done w \/ w ∈ ns)
      /\ (loop_measure start st1 <= loop_measure start st)%nat.
Proof.
  induction ns as [|n ns IH]; intros st done Hinv Hcl Hcur Hns.
  - exists st. split; [reflexivity|]. split; [exact Hinv|]. split; [| lia].
    eapply closed_except_mono; [| exact Hcl].
    intros w [H|H]; [exact H | inversion H].
  - destruct (relax_preserves st cur n ccur done Hinv Hcl Hcur)
      as (st1 & Hrun & Hinv1 & Hcl1 & Hcur1 & Hm1); [apply Hns; left|].
    destruct (IH st1 _ Hinv1 Hcl1 Hcur1) as (st2 & Hrun2 & Hinv2 & Hcl2 & Hm2);
      [intros m Hm; apply Hns; right; exact Hm|].
    exists st2. split.
    + simpl. unfold bind. rewrite Hrun. exact Hrun2.
    + split; [exact Hinv2|]. split; [| lia].
      eapply closed_except_mono; [| exact Hcl2].
      intros w [H|H]; [left; left; exact H|].
      apply elem_of_cons in H as [->|H];
        [left; right; reflexivity | right; exact H].
Qed.

(** ** Why the goal's cost is optimal when the loop stops *)

Lemma frontier_progress (st : SearchState) :
  search_inv grid start goal st ->
  closed grid goal st ->
  forall u t n,
    walk grid u t n -> t = goal ->
    forall cu i,
      cost_so_far st !! u = Some cu -> cu <= i ->
      (exists cg, cost_so_far st !! goal = Some cg /\ cg <= i + Z.of_nat n)
      \/ (exists x cx, (cx + heuristic goal x, x) ∈ frontier st
                       /\ cx + heuristic goal x <= i + Z.of_nat n).
Proof.
  intros Hinv Hcl u t n Hw. induction Hw as [a|a b c n Hab Hbc IH];
    intros -> cu i Hu Hle.
  - left. exists cu. split; [exact Hu | lia].
  - destruct (Hcl a cu Hu) as [Hf|Hr].
    + right. exists a, cu. split; [exact Hf|].
      pose proof (heuristic_admissible grid goal a (S n)
                    (walk_step grid a b goal n Hab Hbc)). lia.
    + destruct (Hr b Hab) as (cb & Hb & Hcb).
      destruct (IH eq_refl cb (i + 1) Hb) as [(cg & Hg & Hcg)|(x & cx & Hx & Hcx)];
        [lia | left | right].
      * exists cg. split; [exact Hg | lia].
      * exists x, cx. split; [exact Hx | lia].
Qed.

Lemma heuristic_self (c : Cell) : heuristic c c = 0.
Proof. unfold heuristic. lia. Qed.

Lemma settled_when_stopped (st : SearchState) :
  search_inv grid start goal st ->
  closed grid goal st ->
  (frontier st = []
   \/ exists p r, pop_min (frontier st) = Some ((p, goal), r)) ->
  goal_settled grid start goal st.
Proof.
  intros Hinv Hcl Hstop k Hk.
  destruct (frontier_progress st Hinv Hcl start goal k Hk eq_refl 0 0
              (inv_start_cost _ _ _ _ Hinv))
    as [(cg & Hg & Hcg)|(x & cx & Hx & Hcx)];
    [lia | exists cg; split; [exact Hg | lia] |].
  destruct Hstop as [He|(p & r & Hpop)].
  - rewrite He in Hx. inversion Hx.
  - destruct (pop_min_spec _ _ _ Hpop) as (Hin & Hmin & _).
    specialize (Hmin _ Hx). simpl in Hmin.
    destruct (inv_frontier _ _ _ _ Hinv p goal) as (c & Hc & Hle).
    { apply Hin. left. reflexivity. }
    rewrite heuristic_self in Hle. exists c. split; [exact Hc | lia].
Qed.

(** ** The while loop *)

Lemma inv_with_frontier (st : SearchState) (r : PriorityQueue) :
  search_inv grid start goal st ->
  (forall e, e ∈ r -> e ∈ frontier st) ->
  search_inv grid start goal
    {| frontier := r; came_from := came_from st;
       cost_so_far := cost_so_far st |}.
Proof.
  intros Hinv Hsub. destruct Hinv as [H1 H2 H3 H4 H5 H6 H7].
  constructor; simpl; try assumption.
  intros p x Hx. apply H6, Hsub, Hx.
Qed.

(** The part of an iteration after the pop, when the popped cell is not the
    goal: expand it and continue with the loop. *)
Lemma expand_then_loop (fuel : nat) (st1 : SearchState) (cur : Cell) (ccur : Z) :
  (forall st, search_inv grid start goal st -> closed grid goal st ->
              (loop_measure start st < fuel)%nat ->
              exists st', search_loop fuel goal st grid = (Ok st', grid)
                          /\ loop_post grid start goal st') ->
  search_inv grid start goal st1 ->
  closed_except grid goal st1 cur (fun _ => False) ->
  cost_so_far st1 !! cur = Some ccur ->
  (loop_measure start st1 < fuel)%nat ->
  exists st',
    (let* neighbors := get_neighbors cur in
     let* st2 := for_each neighbors (relax goal cur) st1 in
     search_loop fuel goal st2) grid = (Ok st', grid)
    /\ loop_post grid start goal st'.
Proof.
  intros Hloop Hinv Hcl Hcur Hm.
  destruct (get_neighbors_spec grid Hwf cur) as (ns & Hns & Hiff).
  destruct (relax_all cur ccur ns st1 _ Hinv Hcl Hcur)
    as (st2 & Hrun & Hinv2 & Hcl2 & Hm2); [intros n Hn; apply Hiff, Hn|].
  destruct (Hloop st2 Hinv2) as (st' & Hrun' & Hpost); [| lia |].
  - intros u cu Hu. destruct (Hcl2 u cu Hu) as [Hf|Hr]; [left; exact Hf|].
    right. intros w Hw. apply Hr; [exact Hw|]. intros E. right.
    apply Hiff. subst u. exact Hw.
  - exists st'. split; [| exact Hpost].
    unfold bind. rewrite Hns, Hrun. exact Hrun'.
Qed.

Lemma search_loop_correct (fuel : nat) :
  forall st,
    search_inv grid start goal st ->
    closed grid goal st ->
    (loop_measure start st < fuel)%nat ->
    exists st',
      search_loop fuel goal st grid = (Ok st', grid)
      /\ loop_post grid start goal st'.
Proof.
  induction fuel as [|fuel IH]; intros st Hinv Hcl Hm; [lia|].
  simpl. destruct (PriorityQueue_empty (frontier st)) eqn:Ee.
  - exists st. split; [reflexivity|]. split; [exact Hinv|].
    apply settled_when_stopped; [exact Hinv | exact Hcl |]. left.
    destruct (frontier st); [reflexivity | discriminate].
  - destruct (pop_min_nonempty _ Ee) as ([p cur] & r & Hpop).
    destruct (pop_min_spec _ _ _ Hpop) as (Hin & Hmin & Hlen).
    unfold bind at 1. unfold lift, PriorityQueue_get. rewrite Hpop. simpl.
    assert (Hinv1 : search_inv grid start goal
              {| frontier := r; came_from := came_from st;
                 cost_so_far := cost_so_far st |}).
    { apply inv_with_frontier; [exact Hinv|]. intros e He. apply Hin. right.
      exact He. }
    destruct (decide (cur = goal)) as [->|Hng].
    + eexists. split; [reflexivity|]. split; [exact Hinv1|].
      intros k Hk. simpl.
      apply (settled_when_stopped st Hinv Hcl); [| exact Hk].
      right. exists p, r. exact Hpop.
    + destruct (inv_frontier _ _ _ _ Hinv p cur) as (ccur & Hcur & _).
      { apply Hin. left. reflexivity. }
      apply (expand_then_loop fuel _ cur ccur IH Hinv1).
      * intros u cu Hu. simpl in Hu. destruct (Hcl u cu Hu) as [Hf|Hr].
        -- destruct (decide (u = cur)) as [->|Huc].
           ++ right. intros w _ Hd. destruct (Hd eq_refl).
           ++ left. simpl. apply Hin in Hf as [Hf|Hf]; [| exact Hf].
              injection Hf as _ Hf. contradiction.
        -- right. intros w Hw _. apply Hr, Hw.
      * exact Hcur.
      * unfold loop_measure in *. simpl.
        change (potential start {| frontier := r; came_from := came_from st;
                                   cost_so_far := cost_so_far st |})
          with (potential start st). lia.
Qed.


(** ** The first iteration *)

Lemma start_popped_inv : search_inv grid start goal (start_popped start).
Proof.
  constructor; simpl.
  - apply lookup_singleton_eq.
  - apply lookup_singleton_eq.
  - intros v. destruct (decide (v = start)) as [->|Hne].
    + rewrite !lookup_singleton_eq. split; discriminate.
    + rewrite !lookup_singleton_ne by congruence. tauto.
  - intros v c Hv Hne. rewrite lookup_singleton_ne in Hv by congruence.
    discriminate.
  - intros v c Hv. destruct (decide (v = start)) as [->|Hne];
      [| rewrite lookup_singleton_ne in Hv by congruence; discriminate].
    rewrite lookup_singleton_eq in Hv. injection Hv as <-.
    split; [left|].
    assert (missing start (start_popped start) <= 1 * length (universe start))%nat.
    { apply sum_list_fmap_bound. intros x _. unfold is_missing.
      destruct (_ !! x); lia. }
    assert (Hs : is_missing (start_popped start) start = 0%nat).
    { unfold is_missing. simpl. rewrite lookup_singleton_eq. reflexivity. }
    assert (missing start (start_popped start)
            <= 0 + 1 * length all_cells)%nat.
    { unfold missing, universe.
      change (sum_list (is_missing (start_popped start) <$> start :: all_cells))
        with (is_missing (start_popped start) start
              + sum_list (is_missing (start_popped start) <$> all_cells))%nat.
      rewrite Hs. apply Nat.add_le_mono_l, sum_list_fmap_bound.
      intros x _. unfold is_missing. destruct (_ !! x); lia. }
    change (length all_cells) with 400%nat in *. lia.
  - intros p x Hx. inversion Hx.
  - intros v c Hv. destruct (decide (v = start)) as [->|Hne];
      [| rewrite lookup_singleton_ne in Hv by congruence; discriminate].
    rewrite lookup_singleton_eq in Hv. injection Hv as <-.
    exists 0%nat. split; [apply walk_here | lia].
Qed.

Lemma start_popped_measure :
  Z.of_nat (loop_measure start (start_popped start)) <= 321602.
Proof.
  unfold loop_measure, potential. simpl length.
  assert (sum_list (cost_weight (start_popped start) <$> universe start)
          <= 401 * length (universe start))%nat.
  { apply sum_list_fmap_bound. intros x _. unfold cost_weight. simpl.
    destruct (decide (x = start)) as [->|Hne].
    - rewrite lookup_singleton_eq. simpl. lia.
    - rewrite lookup_singleton_ne by congruence. lia. }
  rewrite universe_length in *. lia.
Qed.

Lemma search_from_start (fuel : nat) :
  330000 <= Z.of_nat fuel ->
  exists st',
    search_loop fuel goal (initial_state start) grid = (Ok st', grid)
    /\ loop_post grid start goal st'.
Proof.
  intros Hfuel. destruct fuel as [|fuel]; [lia|].
  pose proof start_popped_inv as Hinv.
  pose proof start_popped_measure as Hm.
  change (search_loop (S fuel) goal (initial_state start)) with
    (if decide (start = goal) then ret (start_popped start)
     else
       let* neighbors := get_neighbors start in
       let* st2 :=
         for_each neighbors (relax goal start) (start_popped start) in
       search_loop fuel goal st2).
  destruct (decide (start = goal)) as [E|Hne].
  - exists (start_popped start). split; [reflexivity|]. split; [exact Hinv|].
    intros k _. exists 0. subst goal.
    split; [apply lookup_singleton_eq | lia].
  - apply (expand_then_loop fuel (start_popped start) start 0
             (search_loop_correct fuel) Hinv).
    + intros u cu Hu. right. intros w _ Hd. simpl in Hu.
      destruct (decide (u = start)) as [->|Hus]; [destruct (Hd eq_refl)|].
      rewrite lookup_singleton_ne in Hu by congruence. discriminate.
    + apply lookup_singleton_eq.
    + lia.
Qed.

(** ** Rebuilding the path *)

Lemma reconstruct_spec (st : SearchState) :
  search_inv grid start goal st ->
  forall (fuel : nat) (v : Cell) (cv : Z) (acc : list Cell),
    cost_so_far st !! v = Some cv ->
    (Z.to_nat cv < fuel)%nat ->
    exists chain,
      reconstruct fuel (came_from st) start v acc = Ok (acc ++ chain)
      /\ is_walk grid start (rev chain)
      /\ List.last (rev chain) start = v
      /\ Z.of_nat (length chain) <= cv.
Proof.
  intros Hinv. induction fuel as [|fuel IH]; intros v cv acc Hv Hf; [lia|].
  pose proof (inv_cost_nonneg st v cv Hinv Hv) as Hcv.
  simpl. destruct (decide (v = start)) as [->|Hne].
  - exists []. rewrite app_nil_r. simpl. repeat split; lia.
  - destruct (inv_pred _ _ _ _ Hinv v cv Hv Hne)
      as (u & cu & Hfrom & Hu & Hle & Hs).
    pose proof (inv_cost_nonneg st u cu Hinv Hu) as Hcu.
    unfold came_from_get. rewrite Hfrom.
    destruct (IH u cu (acc ++ [v]) Hu) as (chain & Hrun & Hw & Hlast & Hlen);
      [lia|].
    exists (v :: chain). rewrite Hrun, <- app_assoc. simpl.
    split; [reflexivity|]. split; [| split; [apply last_last | lia]].
    apply is_walk_snoc; [exact Hw|]. rewrite Hlast. exact Hs.
Qed.

Lemma reconstruct_unreachable (st : SearchState) (fuel : nat) :
  came_from st !! goal = None -> goal <> start -> (0 < fuel)%nat ->
  reconstruct fuel (came_from st) start goal [] = Ok [goal].
Proof.
  intros Hg Hne Hf. destruct fuel as [|fuel]; [lia|]. simpl.
  destruct (decide (goal = start)) as [E|_]; [contradiction|].
  unfold came_from_get. rewrite Hg. reflexivity.
Qed.

End SearchProof.

(** ** a_star_search *)

Lemma search_fuel_enough : 330000 <= Z.of_nat search_fuel.
Proof. unfold search_fuel. lia. Qed.

(** What a call computes on a well-formed grid: the loop ends normally in a
    state that satisfies the invariant and has settled the goal, and the path
    comes from [reconstruct] on that state. *)
Lemma a_star_search_run (start goal : Pos) (grid : Grid) :
  wf_grid grid ->
  exists st,
    search_inv grid (snap start) (snap goal) st
    /\ goal_settled grid (snap start) (snap goal) st
    /\ a_star_search start goal grid
       = (match reconstruct search_fuel (came_from st) (snap start)
                  (snap goal) [] with
          | Ok path => Ok (rev path)
          | Raise e => Raise e
          | OutOfFuel => OutOfFuel
          end, grid).
Proof.
  intros Hwf.
  destruct (search_from_start grid (snap start) (snap goal) Hwf search_fuel
              search_fuel_enough) as (st & Hrun & Hinv & Hset).
  exists st. split; [exact Hinv|]. split; [exact Hset|].
  unfold a_star_search.
  change (search_loop search_fuel (snap goal) _)
    with (search_loop search_fuel (snap goal)
            (initial_state (snap start))).
  unfold bind at 1. rewrite Hrun. unfold bind, lift, ret.
  destruct (reconstruct _ _ _ _ _); reflexivity.
Qed.


(** C1, on the code: when the snapped goal cannot be reached, the call
    returns the one-cell path made of the goal itself, not the empty path. *)
Theorem a_star_search_unreachable_returns_goal
    (start goal : Pos) (grid : Grid) :
  wf_grid grid ->
  ~ reachable grid (snap start) (snap goal) ->
  a_star_search start goal grid = (Ok [snap goal], grid).
Proof.
  intros Hwf Hun.
  destruct (a_star_search_run start goal grid Hwf) as (st & Hinv & _ & Hrun).
  rewrite Hrun.
  rewrite (reconstruct_unreachable (snap start) (snap goal) st search_fuel).
  - reflexivity.
  - apply (inv_dom _ _ _ _ Hinv).
    destruct (cost_so_far st !! snap goal) as [c|] eqn:E; [| reflexivity].
    exfalso. apply Hun.
    destruct (inv_walk _ _ _ _ Hinv _ _ E) as (n & Hn & _). exists n. exact Hn.
  - intros E. apply Hun. rewrite E. exists 0%nat. apply walk_here.
  - pose proof search_fuel_enough. lia.
Qed.

(** ** The search on concrete grids *)

Lemma the_grid_wf : wf_grid the_grid.
Proof. split; [reflexivity | repeat constructor]. Qed.

Lemma walled_in_grid_wf : wf_grid walled_in_grid.
Proof. split; [reflexivity | repeat constructor]. Qed.

Lemma walled_in_no_step (b : Cell) :
  ~ wall_free_step walled_in_grid (10, 10) b.
Proof.
  intros [Hu [_ (c & Hc & Hne)]].
  apply unit_step_offsets in Hu as (d & Hd & ->).
  repeat (apply elem_of_cons in Hd as [->|Hd]);
    try (vm_compute in Hc; injection Hc as <-; apply Hne; reflexivity).
  inversion Hd.
Qed.

Lemma walled_in_unreachable :
  ~ reachable walled_in_grid (snap (Z2P (10, 10))) (snap (Z2P (1, 1))).
Proof.
  change (snap (Z2P (10, 10))) with ((10, 10) : Cell).
  change (snap (Z2P (1, 1))) with ((1, 1) : Cell).
  intros [n Hn]. inversion Hn as [|a b c m Hstep _]; subst.
  exact (walled_in_no_step _ Hstep).
Qed.

Lemma a_star_search_unreachable_returns_goal_witness :
  a_star_search (Z2P (10, 10)) (Z2P (1, 1)) walled_in_grid
  = (Ok [(1, 1)], walled_in_grid).
Proof.
  exact (a_star_search_unreachable_returns_goal (Z2P (10, 10)) (Z2P (1, 1))
           walled_in_grid walled_in_grid_wf walled_in_unreachable).
Defined.

(** The same by evaluation, and for a goal that is itself a wall. *)
Example a_star_search_unreachable_examples :
  a_star_search (Z2P (10, 10)) (Z2P (1, 1)) walled_in_grid
  = (Ok [(1, 1)], walled_in_grid)
  /\ a_star_search (Z2P (10, 10)) (Z2P (0, 0)) the_grid
     = (Ok [(0, 0)], the_grid).
Proof. split; vm_compute; reflexivity. Qed.

Lemma maze_step_1_1_to_2_1 : wall_free_step the_grid (1, 1) (2, 1).
Proof.
  split; [reflexivity|]. split; [reflexivity|].
  exists 2. split; [reflexivity | discriminate].
Qed.

Lemma maze_step_2_1_to_2_2 : wall_free_step the_grid (2, 1) (2, 2).
Proof.
  split; [reflexivity|]. split; [reflexivity|].
  exists 2. split; [reflexivity | discriminate].
Qed.

Lemma maze_reachable_1_1_to_2_2 :
  reachable the_grid (snap (Z2P (1, 1))) (snap (Z2P (2, 2))).
Proof.
  exists 2%nat.
  change (snap (Z2P (1, 1))) with ((1, 1) : Cell).
  change (snap (Z2P (2, 2))) with ((2, 2) : Cell).
  eapply walk_step; [exact maze_step_1_1_to_2_1|].
  eapply walk_step; [exact maze_step_2_1_to_2_2 | apply walk_here].
Qed.


(** In the maze of [create_grid], from the first ghost's cell (10, 10) to
    the first player's cell (1, 1): 18 steps, the Manhattan distance. *)
Example a_star_search_maze :
  a_star_search (Z2P (10, 10)) (Z2P (1, 1)) the_grid
  = (Ok [(9, 10); (8, 10); (7, 10); (6, 10); (5, 10); (4, 10); (3, 10);
         (2, 10); (1, 10); (1, 9); (1, 8); (1, 7); (1, 6); (1, 5); (1, 4);
         (1, 3); (1, 2); (1, 1)], the_grid).
Proof. vm_compute. reflexivity. Qed.

(** Start and goal in the same cell: the empty path. *)
Example a_star_search_same_cell :
  a_star_search (Z2P (10, 10)) (Z2P (10, 10)) the_grid = (Ok [], the_grid).
Proof. vm_compute. reflexivity. Qed.

(** * Further properties of the code *)

(** ** heuristic *)

(** X1: the Manhattan heuristic is a metric on cells: never negative, zero
    exactly between a cell and itself, symmetric, and it obeys the triangle
    inequality, so moving one cell changes the estimate to a goal by at most
    the distance moved. *)
Theorem heuristic_is_metric (a b c : Cell) :
  0 <= heuristic a b
  /\ (heuristic a b = 0 <-> a = b)
  /\ heuristic a b = heuristic b a
  /\ heuristic a c <= heuristic a b + heuristic b c
  /\ Z.abs (heuristic c a - heuristic c b) <= heuristic a b.
Proof.
  unfold heuristic. destruct a as [ax ay], b as [bx by_], c as [cx cy]. simpl.
  split; [lia|]. split; [| split; [lia | split; lia]].
  split; [intros H; f_equal; lia | intros [= -> ->]; lia].
Qed.

Lemma maze_walk_1_1_to_2_2 : walk the_grid (1, 1) (2, 2) 2.
Proof.
  eapply walk_step; [exact maze_step_1_1_to_2_1|].
  eapply walk_step; [exact maze_step_2_1_to_2_2 | apply walk_here].
Qed.

(** X2: the heuristic is admissible: from any cell it is at most the number
    of steps of any wall-free walk to the goal. *)
Theorem heuristic_never_overestimates
    (grid : Grid) (goal u : Cell) (n : nat) :
  walk grid u goal n -> heuristic goal u <= Z.of_nat n.
Proof.
  intros H. induction H as [a|a b c n [Hab _] _ IH].
  - unfold heuristic. lia.
  - unfold heuristic, unit_step in *. lia.
Qed.

Lemma heuristic_never_overestimates_witness :
  heuristic (2, 2) (1, 1) <= Z.of_nat 2.
Proof.
  exact (heuristic_never_overestimates the_grid (2, 2) (1, 1) 2
           maze_walk_1_1_to_2_2).
Defined.

(** ** Snapping *)

(** X3: snapping is idempotent: a position with integral coordinates snaps to
    those coordinates, so snapping a snapped position changes nothing. *)
Theorem snap_idempotent (p : Pos) (c : Cell) :
  snap (Z2P c) = c /\ snap (Z2P (snap p)) = snap p.
Proof. split; apply snap_Z2P. Qed.

(** ** PriorityQueue *)

Lemma entry_leb_total (a b : Entry) :
  entry_leb a b = false -> entry_leb b a = true.
Proof. unfold entry_leb, cell_ltb. lia. Qed.

Lemma entry_leb_trans (a b c : Entry) :
  entry_leb a b = true -> entry_leb b c = true -> entry_leb a c = true.
Proof. unfold entry_leb, cell_ltb. lia. Qed.

Lemma entry_leb_refl (a : Entry) : entry_leb a a = true.
Proof. unfold entry_leb, cell_ltb. lia. Qed.

Lemma pop_min_least (l : list Entry) (m : Entry) (r : list Entry) :
  pop_min l = Some (m, r) ->
  Permutation l (m :: r) /\ forall e, e ∈ l -> entry_leb m e = true.
Proof.
  revert m r. induction l as [|e l IH]; intros m r H; simpl in H;
    [discriminate|].
  destruct (pop_min l) as [[m' r']|] eqn:E.
  - destruct (IH m' r' eq_refl) as [Hperm Hmin].
    destruct (entry_leb e m') eqn:El; injection H as <- <-.
    + split; [reflexivity|]. intros x Hx.
      apply elem_of_cons in Hx as [->|Hx]; [apply entry_leb_refl|].
      eapply entry_leb_trans; [exact El | apply Hmin, Hx].
    + split.
      * rewrite Hperm. apply perm_swap.
      * intros x Hx. apply elem_of_cons in Hx as [->|Hx];
          [apply entry_leb_total, El | apply Hmin, Hx].
  - injection H as <- <-. destruct l; [| simpl in E;
      destruct (pop_min l) as [[? ?]|]; [destruct (entry_leb _ _)|];
      discriminate].
    split; [reflexivity|]. intros x Hx.
    apply elem_of_cons in Hx as [->|Hx]; [apply entry_leb_refl | inversion Hx].
Qed.

(** X4: [PriorityQueue.get] on an empty queue raises IndexError; otherwise
    it returns the item of an entry that is least in Python's tuple order
    (priority first, then the cell) and leaves exactly the other entries, and
    [empty] tells the two cases apart. *)
Theorem PriorityQueue_get_least (q : PriorityQueue) :
  (PriorityQueue_empty q = true ->
   q = [] /\ PriorityQueue_get q = Raise IndexError)
  /\ (PriorityQueue_empty q = false ->
      exists priority item rest,
        PriorityQueue_get q = Ok (item, rest)
        /\ Permutation q ((priority, item) :: rest)
        /\ forall e, e ∈ q -> entry_leb (priority, item) e = true).
Proof.
  split.
  - intros H. destruct q; [split; reflexivity | discriminate].
  - intros H. destruct (pop_min_nonempty q H) as ([p item] & rest & Hpop).
    destruct (pop_min_least q _ _ Hpop) as [Hperm Hmin].
    exists p, item, rest. unfold PriorityQueue_get. rewrite Hpop.
    split; [reflexivity|]. split; assumption.
Qed.

(** X5: what was put last comes out first when nothing in the queue is
    smaller, and an item put into the empty queue comes straight back. *)
Theorem PriorityQueue_put_get (q : PriorityQueue) (item : Cell) (priority : Z) :
  (forall e, e ∈ q -> entry_leb (priority, item) e = true) ->
  PriorityQueue_get (PriorityQueue_put q item priority) = Ok (item, q).
Proof.
  intros Hmin. unfold PriorityQueue_get, PriorityQueue_put. simpl.
  destruct (pop_min q) as [[m r]|] eqn:E.
  - destruct (pop_min_least q m r E) as [Hperm _].
    rewrite (Hmin m); [reflexivity|]. rewrite Hperm. left.
  - destruct q as [|e q]; [reflexivity|]. simpl in E.
    destruct (pop_min q) as [[? ?]|]; [destruct (entry_leb _ _)|];
      discriminate.
Qed.

Lemma PriorityQueue_put_get_witness :
  PriorityQueue_get (PriorityQueue_put [(3, (1, 1))] (2, 2) 1)
  = Ok ((2, 2), [(3, (1, 1))]).
Proof.
  apply (PriorityQueue_put_get [(3, (1, 1))] (2, 2) 1).
  intros e He. apply list_elem_of_singleton in He. subst e. reflexivity.
Defined.

(** ** get_neighbors *)

Lemma neighbors_loop_sublist (grid : Grid) (x y : Z) (offs : list (Z * Z)) :
  forall (acc ns : list Cell) (g' : Grid),
    for_each offs
      (fun neighbors d =>
         let nx := x + fst d in
         let ny := y + snd d in
         if in_bounds (nx, ny) then
           let* c := grid_get ny nx in
           if c =? 1 then ret neighbors else ret (neighbors ++ [(nx, ny)])
         else ret neighbors)
      acc grid = (Ok ns, g') ->
    exists ns',
      ns = acc ++ ns'
      /\ ns' `sublist_of` map (fun d => (x + fst d, y + snd d)) offs.
Proof.
  induction offs as [|d offs IH]; intros acc ns g' H; simpl in H.
  - injection H as <- _. exists []. rewrite app_nil_r.
    split; [reflexivity | constructor].
  - unfold bind at 1 in H.
    destruct (in_bounds (x + fst d, y + snd d)).
    + unfold bind at 1 in H.
      pose proof (preserves_grid_get (y + snd d) (x + fst d) grid) as Hg.
      destruct (grid_get (y + snd d) (x + fst d) grid) as [[c|e|] g1];
        simpl in Hg; subst g1; try discriminate.
      destruct (c =? 1); simpl in H.
      * destruct (IH _ _ _ H) as (ns' & -> & Hs). exists ns'.
        split; [reflexivity | simpl; constructor; exact Hs].
      * destruct (IH _ _ _ H) as (ns' & -> & Hs).
        exists ((x + fst d, y + snd d) :: ns'). rewrite <- app_assoc.
        split; [reflexivity | simpl; constructor; exact Hs].
    + simpl in H. destruct (IH _ _ _ H) as (ns' & -> & Hs). exists ns'.
      split; [reflexivity | simpl; constructor; exact Hs].
Qed.

Lemma four_neighbors_NoDup (x y : Z) :
  NoDup [(x, y + 1); (x + 1, y); (x, y - 1); (x - 1, y)].
Proof.
  repeat (apply NoDup_cons; split);
    [ | | | | apply NoDup_nil; exact I];
    rewrite ?elem_of_cons, ?elem_of_nil; intros H;
    repeat (destruct H as [H|H]); try (injection H; lia); exact H.
Qed.

(** X6: on a well-formed grid [get_neighbors] returns normally and leaves
    the grid alone; its result lists exactly the cells one wall-free step
    away, picked in the order down, right, up, left of the source from the
    four adjacent cells, so it has at most four entries and none twice. *)
Theorem get_neighbors_exact (grid : Grid) (pos : Cell) :
  wf_grid grid ->
  exists ns,
    get_neighbors pos grid = (Ok ns, grid)
    /\ (forall b, b ∈ ns <-> wall_free_step grid pos b)
    /\ ns `sublist_of` [(fst pos, snd pos + 1); (fst pos + 1, snd pos);
                        (fst pos, snd pos - 1); (fst pos - 1, snd pos)]
    /\ NoDup ns /\ (length ns <= 4)%nat.
Proof.
  intros Hwf. destruct (get_neighbors_spec grid Hwf pos) as (ns & Hrun & Hiff).
  exists ns. split; [exact Hrun|]. split; [exact Hiff|].
  assert (Hsub : ns `sublist_of` [(fst pos, snd pos + 1); (fst pos + 1, snd pos);
                                  (fst pos, snd pos - 1); (fst pos - 1, snd pos)]).
  { destruct pos as [x y]. unfold get_neighbors in Hrun.
    destruct (neighbors_loop_sublist grid x y _ _ _ _ Hrun) as (ns' & -> & Hs).
    simpl in Hs. simpl.
    replace (x + 0) with x in Hs by lia. replace (y + 0) with y in Hs by lia.
    replace (y + -1) with (y - 1) in Hs by lia.
    replace (x + -1) with (x - 1) in Hs by lia. exact Hs. }
  split; [exact Hsub|]. split.
  - eapply sublist_NoDup; [apply four_neighbors_NoDup | exact Hsub].
  - apply sublist_length in Hsub. exact Hsub.
Qed.

Lemma get_neighbors_exact_witness :
  exists ns,
    get_neighbors (1, 1) the_grid = (Ok ns, the_grid)
    /\ (forall b, b ∈ ns <-> wall_free_step the_grid (1, 1) b)
    /\ ns `sublist_of` [(1, 1 + 1); (1 + 1, 1); (1, 1 - 1); (1 - 1, 1)]
    /\ NoDup ns /\ (length ns <= 4)%nat.
Proof. exact (get_neighbors_exact the_grid (1, 1) the_grid_wf). Defined.

(** In the corner (1, 1) of the maze the open neighbours are (1, 2) and
    (2, 1), in that order. *)
Example get_neighbors_corner :
  get_neighbors (1, 1) the_grid = (Ok [(1, 2); (2, 1)], the_grid).
Proof. vm_compute. reflexivity. Qed.

(** X7: a grid that lacks an in-bounds neighbour's row makes [get_neighbors]
    raise IndexError: the bounds test uses the constant GRID_SIZE, not the
    size of the grid it is given. *)
Theorem get_neighbors_short_grid_raises (grid : Grid) (pos : Cell) :
  in_bounds (fst pos, snd pos + 1) = true ->
  (Z.of_nat (length grid) <= snd pos + 1) ->
  get_neighbors pos grid = (Raise IndexError, grid).
Proof.
  intros Hb Hlen. destruct pos as [x y]. simpl in *.
  unfold get_neighbors, NEIGHBOR_OFFSETS. simpl.
  replace (x + 0) with x by lia. unfold bind at 1. rewrite Hb.
  unfold bind at 1, grid_get, py_index, py_norm_index.
  unfold in_bounds in Hb. simpl in Hb.
  destruct ((0 <=? y + 1) && (y + 1 <? Z.of_nat (length grid))) eqn:E1; [lia|].
  destruct ((- Z.of_nat (length grid) <=? y + 1) && (y + 1 <? 0)) eqn:E2;
    [lia | reflexivity].
Qed.

Lemma get_neighbors_short_grid_raises_witness :
  get_neighbors (3, 0) [[0; 0; 0; 0; 0]] = (Raise IndexError, [[0; 0; 0; 0; 0]]).
Proof.
  apply (get_neighbors_short_grid_raises [[0; 0; 0; 0; 0]] (3, 0)).
  - reflexivity.
  - simpl. lia.
Defined.

(** ** More on a_star_search *)

(** Every call on a well-formed grid returns, in one of two ways. *)
Lemma a_star_search_cases (start goal : Pos) (grid : Grid) :
  wf_grid grid ->
  exists path,
    a_star_search start goal grid = (Ok path, grid)
    /\ (length path <= 400)%nat
    /\ ((is_walk grid (snap start) path
         /\ List.last path (snap start) = snap goal
         /\ forall n, walk grid (snap start) (snap goal) n ->
                      (length path <= n)%nat)
        \/ (~ reachable grid (snap start) (snap goal)
            /\ path = [snap goal])).
Proof.
  intros Hwf.
  destruct (a_star_search_run start goal grid Hwf) as (st & Hinv & Hset & Hrun).
  pose proof search_fuel_enough as Hfuel.
  destruct (cost_so_far st !! snap goal) as [cg|] eqn:Hg.
  - destruct (inv_bound _ _ _ _ Hinv _ _ Hg) as [_ Hb].
    pose proof (inv_cost_nonneg _ _ _ _ _ _ Hinv Hg) as Hcg.
    destruct (reconstruct_spec grid (snap start) (snap goal) st Hinv
                search_fuel (snap goal) cg [] Hg)
      as (chain & Hrec & Hw & Hlast & Hlen); [lia|].
    exists (rev chain). rewrite Hrun, Hrec. simpl.
    split; [reflexivity|]. rewrite length_rev. split; [lia|]. left.
    split; [exact Hw|]. split; [exact Hlast|].
    intros n Hn. destruct (Hset n Hn) as (c & Hc & Hle).
    rewrite Hg in Hc. injection Hc as <-. lia.
  - assert (Hun : ~ reachable grid (snap start) (snap goal)).
    { intros [k Hk]. destruct (Hset k Hk) as (c & Hc & _). congruence. }
    exists [snap goal]. rewrite Hrun.
    rewrite (reconstruct_unreachable (snap start) (snap goal) st search_fuel).
    + split; [reflexivity|]. split; [simpl; lia|]. right. split; [exact Hun|].
      reflexivity.
    + apply (inv_dom _ _ _ _ Hinv). exact Hg.
    + intros E. apply Hun. rewrite E. exists 0%nat. apply walk_here.
    + lia.
Qed.

(** X8: on a well-formed grid [a_star_search] always returns a path: no
    exception is raised, the loops end within their budget, the grid is
    untouched and the path has at most 400 cells. *)
Theorem a_star_search_always_returns (start goal : Pos) (grid : Grid) :
  wf_grid grid ->
  exists path,
    a_star_search start goal grid = (Ok path, grid)
    /\ (length path <= 400)%nat.
Proof.
  intros Hwf.
  destruct (a_star_search_cases start goal grid Hwf) as (path & Hrun & Hlen & _).
  exists path. split; assumption.
Qed.

Lemma a_star_search_always_returns_witness :
  exists path,
    a_star_search (Z2P (10, 10)) (Z2P (18, 18)) the_grid = (Ok path, the_grid)
    /\ (length path <= 400)%nat.
Proof.
  exact (a_star_search_always_returns (Z2P (10, 10)) (Z2P (18, 18)) the_grid
           the_grid_wf).
Defined.

(** X9: when start and goal snap to the same cell the result is the empty
    path, on every grid, well-formed or not: the loop stops at the first pop,
    before any cell is read. *)
Theorem a_star_search_same_cell_empty (start goal : Pos) (grid : Grid) :
  snap start = snap goal ->
  a_star_search start goal grid = (Ok [], grid).
Proof.
  intros E. unfold a_star_search. rewrite E.
  pose proof search_fuel_enough as Hfuel.
  destruct search_fuel as [|fuel]; [simpl in Hfuel; lia|].
  unfold bind at 1.
  change (search_loop (S fuel) (snap goal) _ grid)
    with ((if decide (snap goal = snap goal)
           then ret {| frontier := [];
                       came_from := {[ snap goal := None ]};
                       cost_so_far := {[ snap goal := 0 ]} |}
           else
             let* neighbors := get_neighbors (snap goal) in
             let* st2 :=
               for_each neighbors (relax (snap goal) (snap goal))
                 {| frontier := [];
                    came_from := {[ snap goal := None ]};
                    cost_so_far := {[ snap goal := 0 ]} |} in
             search_loop fuel (snap goal) st2) grid).
  destruct (decide (snap goal = snap goal)) as [_|Hne]; [| contradiction].
  unfold ret, bind, lift. simpl.
  destruct (decide (snap goal = snap goal)) as [_|Hne]; [| contradiction].
  reflexivity.
Qed.

Lemma a_star_search_same_cell_empty_witness :
  a_star_search ((51 # 5)%Q, (49 # 5)%Q) (Z2P (10, 10)) [] = (Ok [], []).
Proof.
  apply (a_star_search_same_cell_empty ((51 # 5)%Q, (49 # 5)%Q)
           (Z2P (10, 10)) []).
  reflexivity.
Defined.

Lemma is_walk_app (grid : Grid) (p1 p2 : list Cell) :
  forall a,
    is_walk grid a (p1 ++ p2) <->
    is_walk grid a p1 /\ is_walk grid (List.last p1 a) p2.
Proof.
  induction p1 as [|b p1 IH]; intros a.
  - simpl. tauto.
  - rewrite last_cons. simpl. rewrite IH. tauto.
Qed.

Lemma last_app_cons (p1 p2 : list Cell) (b a : Cell) :
  List.last (p1 ++ b :: p2) a = List.last p2 b.
Proof.
  induction p1 as [|c p1 IH] in a |- *.
  - apply last_cons.
  - change ((c :: p1) ++ b :: p2) with (c :: (p1 ++ b :: p2)).
    rewrite last_cons. apply IH.
Qed.

(** A walk that comes back to a cell can be cut short. *)
Lemma is_walk_shortcut (grid : Grid) (path : list Cell) :
  forall a,
    is_walk grid a path -> ~ NoDup (a :: path) ->
    exists path',
      is_walk grid a path'
      /\ List.last path' a = List.last path a
      /\ (length path' < length path)%nat.
Proof.
  induction path as [|b path IH]; intros a Hw Hdup.
  - exfalso. apply Hdup. apply NoDup_singleton.
  - destruct (decide (a ∈ b :: path)) as [Hin|Hnin].
    + apply list_elem_of_split in Hin as (p1 & p2 & E). rewrite E in *.
      apply is_walk_app in Hw as [_ Hw]. simpl in Hw. destruct Hw as [_ Hw].
      exists p2. split; [exact Hw|].
      split; [rewrite last_app_cons; reflexivity|].
      rewrite length_app. simpl. lia.
    + destruct Hw as [Hab Hw].
      destruct (IH b Hw) as (path' & Hw' & Hlast & Hlen).
      { intros Hnd. apply Hdup. apply NoDup_cons. split; assumption. }
      exists (b :: path'). split; [split; assumption|].
      split; [rewrite !last_cons; exact Hlast | simpl; lia].
Qed.

Lemma is_walk_open (grid : Grid) (path : list Cell) :
  forall a, is_walk grid a path -> Forall (open_cell grid) path.
Proof.
  induction path as [|b path IH]; intros a Hw; [constructor|].
  destruct Hw as [[_ Ho] Hw]. constructor; [exact Ho | exact (IH b Hw)].
Qed.

Lemma is_walk_unit_path (grid : Grid) (path : list Cell) :
  forall a, is_walk grid a path -> unit_path (a :: path).
Proof.
  induction path as [|b path IH]; intros a Hw; [exact I|].
  destruct Hw as [[Hu _] Hw]. split; [exact Hu | exact (IH b Hw)].
Qed.

(** X10: the path returned for a reachable goal never visits a cell twice
    and never comes back to the start, every cell on it is inside the grid and
    not a wall, and each cell is one step from the one before. *)
Theorem a_star_search_path_simple (start goal : Pos) (grid : Grid) :
  wf_grid grid ->
  reachable grid (snap start) (snap goal) ->
  exists path,
    a_star_search start goal grid = (Ok path, grid)
    /\ NoDup (snap start :: path)
    /\ Forall (open_cell grid) path
    /\ unit_path (snap start :: path).
Proof.
  intros Hwf Hr.
  destruct (a_star_search_cases start goal grid Hwf)
    as (path & Hrun & _ & [(Hw & Hlast & Hmin)|[Hun _]]); [| contradiction].
  exists path. split; [exact Hrun|].
  split; [| split; [eapply is_walk_open | apply (is_walk_unit_path grid)];
            exact Hw].
  destruct (decide (NoDup (snap start :: path))) as [Hnd|Hdup]; [exact Hnd|].
  exfalso.
  destruct (is_walk_shortcut grid path (snap start) Hw Hdup)
    as (path' & Hw' & Hlast' & Hlen).
  pose proof (is_walk_walk grid path' (snap start) Hw') as Hwalk.
  rewrite Hlast', Hlast in Hwalk. specialize (Hmin _ Hwalk). lia.
Qed.

Lemma a_star_search_path_simple_witness :
  exists path,
    a_star_search (Z2P (1, 1)) (Z2P (2, 2)) the_grid = (Ok path, the_grid)
    /\ NoDup (snap (Z2P (1, 1)) :: path)
    /\ Forall (open_cell the_grid) path
    /\ unit_path (snap (Z2P (1, 1)) :: path).
Proof.
  exact (a_star_search_path_simple (Z2P (1, 1)) (Z2P (2, 2)) the_grid
           the_grid_wf maze_reachable_1_1_to_2_2).
Defined.

(** ** Player.collect_pellet and Player.move, structurally *)

Lemma grid_set_spec (y x c v : Z) (grid g2 : Grid) :
  grid_get y x grid = (Ok c, grid) ->
  grid_set y x v grid = (Ok tt, g2) ->
  exists (ny nx : nat) (row : list Z),
    grid !! ny = Some row /\ row !! nx = Some c
    /\ g2 = <[ny := <[nx := v]> row]> grid.
Proof.
  unfold grid_get, grid_set, py_index, py_store. intros Hget Hset.
  destruct (py_norm_index (Z.of_nat (length grid)) y) as [ny|];
    cbn beta iota in Hget, Hset; [| discriminate Hget].
  match type of Hget with
  | context [@lookup ?K ?A ?L ?I ny grid] =>
      destruct (@lookup K A L I ny grid) as [row|] eqn:Erow
  end; cbn beta iota in Hget, Hset; [| discriminate Hget].
  destruct (py_norm_index (Z.of_nat (length row)) x) as [nx|];
    cbn beta iota in Hget, Hset; [| discriminate Hget].
  match type of Hget with
  | context [@lookup ?K ?A ?L ?I nx row] =>
      destruct (@lookup K A L I nx row) as [c'|] eqn:Ec
  end; cbn beta iota in Hget, Hset; [| discriminate Hget].
  injection Hget as ->. injection Hset as <-.
  exists ny, nx, row. repeat split; assumption.
Qed.

Lemma collect_pellet_cases (self p' : Player.t) (grid g' : Grid) :
  Player.collect_pellet self grid = (Ok p', g') ->
  (p' = self /\ g' = grid)
  \/ exists (ny nx : nat) (row : list Z),
       grid !! ny = Some row /\ row !! nx = Some 2
       /\ g' = <[ny := <[nx := 0]> row]> grid
       /\ p' = Player.set_score self (Player.score self + 10).
Proof.
  unfold Player.collect_pellet.
  set (x := py_round (fst (Player.position self))).
  set (y := py_round (snd (Player.position self))).
  unfold bind at 1.
  pose proof (preserves_grid_get y x grid) as Hg.
  destruct (grid_get y x grid) as [[c|e|] g1] eqn:Eget; simpl in Hg;
    subst g1; try discriminate.
  destruct (c =? 2) eqn:E2.
  - assert (c = 2) by lia. subst c. unfold bind, ret.
    destruct (grid_set y x 0 grid) as [[[]|e|] g2] eqn:Eset; try discriminate.
    intros H. injection H as <- <-. right.
    destruct (grid_set_spec y x 2 0 grid g2 Eget Eset)
      as (ny & nx & row & Hrow & Hc & ->).
    exists ny, nx, row. repeat split; assumption.
  - intros H. injection H as <- <-. left. split; reflexivity.
Qed.

Lemma player_move_cases (self p' : Player.t) (grid g' : Grid) :
  Player.move self grid = (Ok p', g') ->
  (p' = self /\ g' = grid)
  \/ ((0 <= fst (candidate self) < 20)%Q
      /\ (0 <= snd (candidate self) < 20)%Q
      /\ (exists c, grid_get (py_int (snd (candidate self)))
                      (py_int (fst (candidate self))) grid = (Ok c, grid)
                    /\ c <> 1)
      /\ Player.collect_pellet (Player.set_position self (candidate self)) grid
         = (Ok p', g')).
Proof.
  unfold Player.move, Player.is_valid_move. fold (candidate self).
  change (Qred _, Qred _) with (candidate self).
  set (cx := Qred (fst (Player.position self)
                   + inject_Z (fst (Player.direction self))
                     * Player.speed self)).
  set (cy := Qred (snd (Player.position self)
                   + inject_Z (snd (Player.direction self))
                     * Player.speed self)).
  change (candidate self) with (cx, cy). cbn [fst snd].
  unfold bind at 1.
  destruct (Qleb 0 cx && Qltb cx (inject_Z GRID_SIZE)
            && Qleb 0 cy && Qltb cy (inject_Z GRID_SIZE)) eqn:Eb.
  - unfold bind at 1.
    pose proof (preserves_grid_get (py_int cy) (py_int cx) grid) as Hg.
    destruct (grid_get (py_int cy) (py_int cx) grid) as [[c|e|] g1] eqn:Eg;
      simpl in Hg; subst g1; try discriminate.
    unfold ret at 1. destruct (negb (c =? 1)) eqn:Ec.
    + intros H. right.
      apply andb_prop in Eb as [Eb E4]. apply andb_prop in Eb as [Eb E3].
      apply andb_prop in Eb as [E1 E2].
      apply Qltb_lt in E2, E4.
      assert (H1 : (0 <= cx)%Q).
      { unfold Qleb in E1. destruct (0 ?= cx)%Q eqn:E; try discriminate.
        - apply Qeq_alt in E. rewrite E. apply Qle_refl.
        - apply Qlt_alt in E. apply Qlt_le_weak, E. }
      assert (H3 : (0 <= cy)%Q).
      { unfold Qleb in E3. destruct (0 ?= cy)%Q eqn:E; try discriminate.
        - apply Qeq_alt in E. rewrite E. apply Qle_refl.
        - apply Qlt_alt in E. apply Qlt_le_weak, E. }
      split; [split; assumption|]. split; [split; assumption|].
      split; [exists c; split; [reflexivity | lia] | exact H].
    + intros H. injection H as <- <-. left. split; reflexivity.
  - intros H. injection H as <- <-. left. split; reflexivity.
Qed.

(** ** Counting cells *)

Lemma count_in_row_insert (v w : Z) (row : list Z) :
  forall (n : nat) (c : Z),
    row !! n = Some c ->
    (count_in_row v (<[n := w]> row) + (if (c =? v)%Z then 1 else 0)
     = count_in_row v row + (if (w =? v)%Z then 1 else 0))%nat.
Proof.
  induction row as [|a row IH]; intros n c H; [discriminate|].
  destruct n as [|n]; simpl in *.
  - injection H as ->. lia.
  - specialize (IH n c H). lia.
Qed.

Lemma sum_list_fmap_insert {A} (f : A -> nat) (l : list A) :
  forall (n : nat) (a a' : A),
    l !! n = Some a ->
    (sum_list (f <$> <[n := a']> l) + f a = sum_list (f <$> l) + f a')%nat.
Proof.
  induction l as [|b l IH]; intros n a a' H; [discriminate|].
  destruct n as [|n].
  - injection H as ->.
    change (f a' + sum_list (f <$> l) + f a
            = f a + sum_list (f <$> l) + f a')%nat. lia.
  - specialize (IH n a a' H).
    change (f b + sum_list (f <$> <[n := a']> l) + f a
            = f b + sum_list (f <$> l) + f a')%nat. lia.
Qed.

Lemma count_cells_eat (v : Z) (grid : list (list Z)) (ny nx : nat)
    (row : list Z) :
  grid !! ny = Some row -> row !! nx = Some 2 ->
  (count_cells v (<[ny := <[nx := 0%Z]> row]> grid)
   + (if (2 =? v)%Z then 1 else 0)
   = count_cells v grid + (if (0 =? v)%Z then 1 else 0))%nat.
Proof.
  intros Hrow Hc. unfold count_cells.
  pose proof (sum_list_fmap_insert (count_in_row v) grid ny row
                (<[nx := 0]> row) Hrow).
  pose proof (count_in_row_insert v 0 row nx 2 Hc). lia.
Qed.

(** ** Player.move: score, pellets and walls *)

Lemma player_move_balance (self p' : Player.t) (grid g' : Grid) :
  Player.move self grid = (Ok p', g') ->
  Player.score p' + 10 * Z.of_nat (pellet_count g')
  = Player.score self + 10 * Z.of_nat (pellet_count grid)
  /\ Player.score self <= Player.score p'
  /\ count_cells 1 g' = count_cells 1 grid.
Proof.
  intros H. apply player_move_cases in H as [[-> ->]|(_ & _ & _ & H)];
    [repeat split; lia|].
  apply collect_pellet_cases in H
    as [[-> ->]|(ny & nx & row & Hrow & Hc & -> & ->)];
    [repeat split; simpl; lia|].
  pose proof (count_cells_eat 2 grid ny nx row Hrow Hc) as H2.
  pose proof (count_cells_eat 1 grid ny nx row Hrow Hc) as H1.
  unfold pellet_count, Grid in *. simpl in *. repeat split; lia.
Qed.

(** X11: the score and the pellets are in balance: whenever [Player.move]
    returns, the score plus ten times the number of pellets left on the grid
    is what it was before, the score has not gone down, and the number of
    walls is unchanged. *)
Theorem player_move_score_balance (self p' : Player.t) (grid g' : Grid) :
  Player.move self grid = (Ok p', g') ->
  Player.score p' + 10 * Z.of_nat (pellet_count g')
  = Player.score self + 10 * Z.of_nat (pellet_count grid)
  /\ Player.score self <= Player.score p'
  /\ count_cells 1 g' = count_cells 1 grid.
Proof. apply player_move_balance. Qed.

Lemma player_move_plus_x_first_tick :
  Player.move (Player.change_direction runner_1_1 DIRECTIONS_LEFT) border_grid
  = (Ok (Player.set_score
           (Player.set_position
              (Player.change_direction runner_1_1 DIRECTIONS_LEFT)
              ((3 # 2)%Q, 1%Q)) 10),
     border_grid_eaten).
Proof. vm_compute. reflexivity. Qed.

Lemma player_move_score_balance_witness :
  10 + 10 * Z.of_nat (pellet_count border_grid_eaten)
  = 0 + 10 * Z.of_nat (pellet_count border_grid).
Proof.
  exact (proj1 (player_move_score_balance _ _ _ _
                  player_move_plus_x_first_tick)).
Defined.

(** ** Player.move: what happens to the grid *)

Lemma cell_kept_refl (c : Z) : cell_kept c c.
Proof. left. reflexivity. Qed.

Lemma grid_kept_refl (grid : Grid) : grid_kept grid grid.
Proof.
  unfold grid_kept. apply Forall2_same_length_lookup_2; [reflexivity|].
  intros i r r' H1 H2. rewrite H1 in H2. injection H2 as <-.
  apply Forall2_same_length_lookup_2; [reflexivity|].
  intros j c c' H3 H4. rewrite H3 in H4. injection H4 as <-.
  apply cell_kept_refl.
Qed.

Lemma grid_kept_eat (grid : list (list Z)) (ny nx : nat) (row : list Z) :
  grid !! ny = Some row -> row !! nx = Some 2 ->
  grid_kept (<[ny := <[nx := 0]> row]> grid) grid.
Proof.
  intros Hrow Hc. unfold grid_kept.
  apply Forall2_same_length_lookup_2; [apply length_insert|].
  intros i r' r H1 H2.
  destruct (decide (i = ny)) as [->|Hne].
  - rewrite list_lookup_insert_eq in H1 by (eapply lookup_lt_Some; eauto).
    injection H1 as <-. rewrite Hrow in H2. injection H2 as <-.
    apply Forall2_same_length_lookup_2; [apply length_insert|].
    intros j c' c H3 H4.
    destruct (decide (j = nx)) as [->|Hnj].
    + rewrite list_lookup_insert_eq in H3 by (eapply lookup_lt_Some; eauto).
      injection H3 as <-. rewrite Hc in H4. injection H4 as <-.
      right. split; reflexivity.
    + rewrite list_lookup_insert_ne in H3 by congruence.
      rewrite H3 in H4. injection H4 as <-. apply cell_kept_refl.
  - rewrite list_lookup_insert_ne in H1 by congruence.
    rewrite H1 in H2. injection H2 as <-.
    apply Forall2_same_length_lookup_2; [reflexivity|].
    intros j c c' H3 H4. rewrite H3 in H4. injection H4 as <-.
    apply cell_kept_refl.
Qed.

Lemma grid_kept_wf (g' grid : Grid) :
  grid_kept g' grid -> wf_grid grid -> wf_grid g'.
Proof.
  intros Hk [Hlen Hrows]. split.
  - rewrite <- Hlen. eapply Forall2_length. exact Hk.
  - apply Forall_forall. intros r' Hr'.
    apply list_elem_of_lookup in Hr' as [i Hi].
    destruct (Forall2_lookup_l _ _ _ _ _ Hk Hi) as (r & Hr & Hrr).
    rewrite (Forall2_length _ _ _ Hrr).
    rewrite Forall_forall in Hrows. apply Hrows.
    eapply list_elem_of_lookup_2. exact Hr.
Qed.

(** A read that succeeds on the old grid succeeds on the kept grid, and finds
    the cell kept. *)
Lemma grid_kept_get (g' grid : Grid) (y x c : Z) :
  grid_kept g' grid ->
  grid_get y x grid = (Ok c, grid) ->
  exists c', grid_get y x g' = (Ok c', g') /\ cell_kept c' c.
Proof.
  intros Hk. unfold grid_get, py_index. intros H.
  rewrite (Forall2_length _ _ _ Hk).
  destruct (py_norm_index (Z.of_nat (length grid)) y) as [ny|];
    cbn beta iota in H |- *; [| discriminate H].
  match type of H with
  | context [@lookup ?K ?A ?L ?I ny grid] =>
      destruct (@lookup K A L I ny grid) as [row|] eqn:Erow
  end; cbn beta iota in H; [| discriminate H].
  destruct (Forall2_lookup_r _ _ _ _ _ Hk Erow) as (row' & Hrow' & Hrr).
  unfold Grid in *. rewrite Hrow'. rewrite (Forall2_length _ _ _ Hrr).
  destruct (py_norm_index (Z.of_nat (length row)) x) as [nx|];
    cbn beta iota in H |- *; [| discriminate H].
  destruct (row !! nx) as [c0|] eqn:Ec; [| discriminate H].
  injection H as ->.
  destruct (Forall2_lookup_r _ _ _ _ _ Hrr Ec) as (c' & Hc' & Hcc).
  rewrite Hc'. exists c'. split; [reflexivity | exact Hcc].
Qed.

Lemma grid_kept_wall (g' grid : Grid) (y x : Z) :
  grid_kept g' grid ->
  grid_get y x grid = (Ok 1, grid) -> grid_get y x g' = (Ok 1, g').
Proof.
  intros Hk H. destruct (grid_kept_get g' grid y x 1 Hk H) as (c' & Hc' & Hcc).
  destruct Hcc as [->|[? _]]; [exact Hc' | lia].
Qed.

Lemma player_move_kept (self p' : Player.t) (grid g' : Grid) :
  Player.move self grid = (Ok p', g') -> grid_kept g' grid.
Proof.
  intros H. apply player_move_cases in H as [[-> ->]|(_ & _ & _ & H)];
    [apply grid_kept_refl|].
  apply collect_pellet_cases in H
    as [[-> ->]|(ny & nx & row & Hrow & Hc & -> & ->)];
    [apply grid_kept_refl | apply grid_kept_eat; assumption].
Qed.



(** X13: a player only ever stands where [is_valid_move] let it go: after
    [Player.move] either nothing about the player has changed, or the
    position is the candidate [position + direction * speed], which lies in
    [0, 20) on both axes and whose truncated cell is not a wall; identity,
    name, colour, direction, speed and radius never change. *)
Theorem player_move_position (self p' : Player.t) (grid g' : Grid) :
  Player.move self grid = (Ok p', g') ->
  Player.id p' = Player.id self
  /\ Player.name p' = Player.name self
  /\ Player.color p' = Player.color self
  /\ Player.direction p' = Player.direction self
  /\ Player.speed p' = Player.speed self
  /\ Player.radius p' = Player.radius self
  /\ ((p' = self /\ g' = grid)
      \/ (Player.position p' = candidate self
          /\ (0 <= fst (candidate self) < 20)%Q
          /\ (0 <= snd (candidate self) < 20)%Q
          /\ exists c, grid_get (py_int (snd (candidate self)))
                         (py_int (fst (candidate self))) grid = (Ok c, grid)
                       /\ c <> 1)).
Proof.
  intros H. apply player_move_cases in H as [[-> ->]|(Hx & Hy & Hc & H)].
  - repeat split; try reflexivity. left. split; reflexivity.
  - apply collect_pellet_cases in H
      as [[-> ->]|(ny & nx & row & Hrow & Hc2 & -> & ->)];
      repeat split; try reflexivity; right; repeat split;
      try apply Hx; try apply Hy; exact Hc.
Qed.

Lemma player_move_position_witness :
  Player.direction
    (Player.set_score
       (Player.set_position
          (Player.change_direction runner_1_1 DIRECTIONS_LEFT)
          ((3 # 2)%Q, 1%Q)) 10)
  = Player.direction (Player.change_direction runner_1_1 DIRECTIONS_LEFT).
Proof.
  exact (proj1 (proj2 (proj2 (proj2
           (player_move_position _ _ _ _ player_move_plus_x_first_tick))))).
Defined.

(** ** Player.move: when it returns and when it raises *)

Lemma py_int_nonneg (q : Q) : (0 <= q)%Q -> py_int q = Qfloor q.
Proof.
  destruct q as [n d]. unfold Qle, py_int, Qfloor. simpl. intros H.
  apply Z.quot_div_nonneg; lia.
Qed.

Lemma Qfloor_range (q : Q) (a b : Z) :
  (inject_Z a <= q)%Q -> (q < inject_Z b)%Q -> a <= Qfloor q < b.
Proof.
  intros Ha Hb. pose proof (Qfloor_bounds q) as [Hlo Hhi]. split.
  - rewrite <- (Qfloor_Z a). apply Qfloor_resp_le. exact Ha.
  - rewrite Zlt_Qlt. eapply Qle_lt_trans; [exact Hlo | exact Hb].
Qed.

Lemma py_round_floor_or_next (q : Q) :
  py_round q = Qfloor q \/ py_round q = Qfloor q + 1.
Proof.
  destruct (py_round_cases q) as [[_ E]|[[_ E]|[_ [_ E]]]]; tauto.
Qed.

(** From 19.5 on, [round] gives 20 where [int] still gives 19. *)
Lemma py_round_from_19_5 (q : Q) :
  (39 # 2 <= q)%Q -> (q < 20)%Q -> py_int q = 19 /\ py_round q = 20.
Proof.
  intros Hlo Hhi.
  assert (Hf : Qfloor q = 19).
  { pose proof (Qfloor_range q 19 20) as H.
    assert (19 <= Qfloor q < 20); [apply H; [| exact Hhi] | lia].
    change (inject_Z 19) with 19%Q. lra. }
  split; [rewrite py_int_nonneg; [exact Hf | lra]|].
  destruct (py_round_cases q) as [[Hr E]|[[Hr E]|[Hr [Ev E]]]];
    rewrite Hf in *; cbv zeta in *.
  - exfalso. change (inject_Z 19) with 19%Q in Hr. lra.
  - rewrite E. reflexivity.
  - destruct E as [E|E]; [| rewrite E; reflexivity].
    rewrite E in Ev. discriminate Ev.
Qed.

Lemma walled_border_not_last (grid : Grid) (y x c : Z) :
  walled_border grid -> 0 <= x < 20 -> 0 <= y < 20 ->
  grid_get y x grid = (Ok c, grid) -> c <> 1 -> x <= 18 /\ y <= 18.
Proof.
  intros Hb Hx Hy Hget Hc. unfold walled_border, GRID_SIZE in Hb.
  split.
  - destruct (decide (x = 19)) as [->|]; [| lia].
    destruct (Hb y Hy) as (_ & H2 & _). change (20 - 1) with 19 in H2.
    congruence.
  - destruct (decide (y = 19)) as [->|]; [| lia].
    destruct (Hb x Hx) as (_ & _ & _ & H4). change (20 - 1) with 19 in H4.
    congruence.
Qed.

Lemma collect_pellet_returns (self : Player.t) (grid : Grid) :
  wf_grid grid -> in_bounds (player_cell self) = true ->
  exists p' g', Player.collect_pellet self grid = (Ok p', g').
Proof.
  intros Hwf Hb. unfold Player.collect_pellet.
  destruct (grid_get_in_bounds grid (player_cell self) Hwf Hb) as [c Hc].
  change (snd (player_cell self))
    with (py_round (snd (Player.position self))) in Hc.
  change (fst (player_cell self))
    with (py_round (fst (Player.position self))) in Hc.
  unfold bind at 1. rewrite Hc. destruct (c =? 2).
  - destruct (grid_set_after_get _ _ c 0 grid Hc) as [g' Hset].
    unfold bind. rewrite Hset. eauto.
  - eauto.
Qed.

Lemma player_move_ok (self : Player.t) (grid : Grid) :
  wf_grid grid -> walled_border grid ->
  exists p' g', Player.move self grid = (Ok p', g').
Proof.
  intros Hwf Hb. unfold Player.move, Player.is_valid_move.
  change (Qred _, Qred _) with (candidate self).
  set (cx := Qred (fst (Player.position self)
                   + inject_Z (fst (Player.direction self))
                     * Player.speed self)).
  set (cy := Qred (snd (Player.position self)
                   + inject_Z (snd (Player.direction self))
                     * Player.speed self)).
  unfold bind at 1.
  destruct (Qleb 0 cx && Qltb cx (inject_Z GRID_SIZE)
            && Qleb 0 cy && Qltb cy (inject_Z GRID_SIZE)) eqn:Eb;
    [| eauto].
  apply andb_prop in Eb as [Eb E4]. apply andb_prop in Eb as [Eb E3].
  apply andb_prop in Eb as [E1 E2]. apply Qltb_lt in E2, E4.
  assert (H1 : (0 <= cx)%Q).
  { unfold Qleb in E1. destruct (0 ?= cx)%Q eqn:E; try discriminate.
    - apply Qeq_alt in E. rewrite E. apply Qle_refl.
    - apply Qlt_alt in E. apply Qlt_le_weak, E. }
  assert (H3 : (0 <= cy)%Q).
  { unfold Qleb in E3. destruct (0 ?= cy)%Q eqn:E; try discriminate.
    - apply Qeq_alt in E. rewrite E. apply Qle_refl.
    - apply Qlt_alt in E. apply Qlt_le_weak, E. }
  pose proof (Qfloor_range cx 0 20 H1 E2) as Hfx.
  pose proof (Qfloor_range cy 0 20 H3 E4) as Hfy.
  rewrite (py_int_nonneg cx H1), (py_int_nonneg cy H3).
  destruct (grid_get_in_bounds grid (Qfloor cx, Qfloor cy) Hwf) as [c Hc].
  { unfold in_bounds, GRID_SIZE. simpl. lia. }
  simpl in Hc. unfold bind at 1. rewrite Hc. unfold ret at 1.
  destruct (c =? 1) eqn:Ec; simpl; [eauto|].
  destruct (walled_border_not_last grid _ _ c Hb Hfx Hfy Hc) as [Hx18 Hy18];
    [lia|].
  apply collect_pellet_returns; [exact Hwf|].
  unfold player_cell, snap, in_bounds, GRID_SIZE. simpl. fold cx cy.
  pose proof (py_round_floor_or_next cx). pose proof (py_round_floor_or_next cy).
  lia.
Qed.

(** X14: on a well-formed grid whose border is walled, [Player.move] always
    returns normally, whatever the player's position, direction and speed:
    the walls on the last row and column keep the rounded cell inside the
    grid. *)
Theorem player_move_returns (self : Player.t) (grid : Grid) :
  wf_grid grid -> walled_border grid ->
  exists p' g', Player.move self grid = (Ok p', g').
Proof. apply player_move_ok. Qed.

Lemma the_grid_walled_border : walled_border the_grid.
Proof.
  intros i Hi. unfold GRID_SIZE in *.
  assert (C : i = 0 \/ i = 1 \/ i = 2 \/ i = 3 \/ i = 4 \/ i = 5 \/ i = 6
              \/ i = 7 \/ i = 8 \/ i = 9 \/ i = 10 \/ i = 11 \/ i = 12
              \/ i = 13 \/ i = 14 \/ i = 15 \/ i = 16 \/ i = 17 \/ i = 18
              \/ i = 19) by lia.
  repeat (destruct C as [->|C]; [repeat split; reflexivity|]).
  subst i. repeat split; reflexivity.
Qed.

Lemma player_move_returns_witness :
  exists p' g',
    Player.move (Player.__init__ 1 1 1 GREEN "Player 1") the_grid
    = (Ok p', g').
Proof.
  exact (player_move_returns _ the_grid the_grid_wf the_grid_walled_border).
Defined.

(** X15: without a wall on the last column the bounds test and the pellet
    lookup disagree: a candidate with 19.5 <= x < 20 passes [is_valid_move]
    (which looks at cell [int(x)] = 19) and then [collect_pellet] indexes
    column [round(x)] = 20, which raises IndexError. *)
Theorem player_move_raises_past_last_column (self : Player.t) (grid : Grid) :
  wf_grid grid ->
  (39 # 2 <= fst (candidate self))%Q -> (fst (candidate self) < 20)%Q ->
  (0 <= snd (candidate self))%Q -> (snd (candidate self) < 19)%Q ->
  (forall c, grid_get (py_int (snd (candidate self))) 19 grid = (Ok c, grid) ->
             c <> 1) ->
  Player.move self grid = (Raise IndexError, grid).
Proof.
  intros Hwf Hx1 Hx2 Hy1 Hy2 Hopen.
  destruct (py_round_from_19_5 _ Hx1 Hx2) as [Hint Hround].
  unfold Player.move, Player.is_valid_move.
  change (Qred _, Qred _) with (candidate self).
  unfold candidate in *. cbn [fst snd] in *.
  set (cx := Qred (fst (Player.position self)
                   + inject_Z (fst (Player.direction self))
                     * Player.speed self)) in *.
  set (cy := Qred (snd (Player.position self)
                   + inject_Z (snd (Player.direction self))
                     * Player.speed self)) in *.
  assert (E : Qleb 0 cx && Qltb cx (inject_Z GRID_SIZE)
              && Qleb 0 cy && Qltb cy (inject_Z GRID_SIZE) = true).
  { assert (Hle : forall a b, (a <= b)%Q -> Qleb a b = true).
    { intros a b Hab. unfold Qleb. destruct (a ?= b)%Q eqn:Ec; try reflexivity.
      apply Qgt_alt in Ec. lra. }
    rewrite !Hle by lra.
    rewrite (proj2 (Qltb_lt cx _)) by (change (inject_Z GRID_SIZE) with 20%Q; lra).
    rewrite (proj2 (Qltb_lt cy _)) by (change (inject_Z GRID_SIZE) with 20%Q; lra).
    reflexivity. }
  rewrite E. rewrite Hint.
  assert (Hfy : 0 <= py_int cy < 20).
  { rewrite py_int_nonneg by exact Hy1.
    apply Qfloor_range; [exact Hy1 | change (inject_Z 20) with 20%Q; lra]. }
  destruct (grid_get_in_bounds grid (19, py_int cy) Hwf) as [c Hc].
  { unfold in_bounds, GRID_SIZE. simpl. lia. }
  simpl in Hc. unfold bind at 1. unfold bind at 1. rewrite Hc. unfold ret at 1.
  pose proof (Hopen c Hc) as Hne.
  destruct (c =? 1) eqn:Ec; [lia|]. simpl.
  unfold Player.collect_pellet. simpl. fold cx cy. rewrite Hround.
  unfold bind, grid_get.
  assert (Hry : 0 <= py_round cy < 20).
  { pose proof (py_round_floor_or_next cy).
    pose proof (Qfloor_range cy 0 19 Hy1 Hy2). lia. }
  destruct Hwf as [Hlen Hrows]. unfold py_index at 1. rewrite Hlen.
  rewrite (py_norm_index_in_range _ (py_round cy)) by lia.
  destruct (lookup_lt_is_Some_2 grid (Z.to_nat (py_round cy))) as [row Hrow];
    [lia|].
  unfold Grid in *. rewrite Hrow.
  assert (Hr : length row = 20%nat).
  { rewrite Forall_forall in Hrows. apply Hrows.
    eapply list_elem_of_lookup_2. exact Hrow. }
  unfold py_index, py_norm_index. rewrite Hr. reflexivity.
Qed.

Lemma player_move_raises_past_last_column_witness :
  Player.move
    (Player.change_direction (Player.__init__ 1 19 1 GREEN "Player 1")
       DIRECTIONS_LEFT)
    zero_grid
  = (Raise IndexError, zero_grid).
Proof.
  apply (player_move_raises_past_last_column
           (Player.change_direction (Player.__init__ 1 19 1 GREEN "Player 1")
              DIRECTIONS_LEFT) zero_grid).
  - split; [reflexivity | repeat constructor].
  - discriminate.
  - reflexivity.
  - discriminate.
  - reflexivity.
  - intros c Hc. vm_compute in Hc. injection Hc as <-. discriminate.
Defined.

(** ** create_grid *)

Lemma maze_cells_checked :
  forallb (fun c => match grid_get (snd c) (fst c) the_grid with
                    | (Ok v, _) => v =? maze_cell (fst c) (snd c)
                    | _ => false
                    end) all_cells = true.
Proof. vm_compute. reflexivity. Qed.

(** X16: [create_grid] never fails and always builds the same maze: 20 rows
    of 20 cells, wall on the whole border and on rows 5 and 15 between
    columns 5 and 14, and a pellet on each of the other 304 cells (no cell is
    left open). *)
Theorem create_grid_layout :
  create_grid = Ok the_grid
  /\ wf_grid the_grid
  /\ walled_border the_grid
  /\ pellet_count the_grid = 304%nat
  /\ count_cells 0 the_grid = 0%nat
  /\ forall x y, in_bounds (x, y) = true ->
       grid_get y x the_grid = (Ok (maze_cell x y), the_grid).
Proof.
  split; [vm_compute; reflexivity|]. split; [exact the_grid_wf|].
  split; [exact the_grid_walled_border|].
  split; [vm_compute; reflexivity|]. split; [vm_compute; reflexivity|].
  intros x y Hb.
  assert (Hin : In (x, y) all_cells)
    by (apply list_elem_of_In, in_bounds_all_cells, Hb).
  pose proof (proj1 (forallb_forall _ _) maze_cells_checked (x, y) Hin) as H.
  cbn beta in H. cbn [fst snd] in H.
  pose proof (preserves_grid_get y x the_grid) as Hg.
  destruct (grid_get y x the_grid) as [[v|e|] g1]; simpl in Hg; subst g1;
    try discriminate H.
  apply Z.eqb_eq in H. rewrite H. reflexivity.
Qed.

(** ** More on Ghost.move *)

Lemma ghost_move_step (self : Ghost.t) (grid : Grid) :
  (Ghost.path (Ghost.move self grid) = Ghost.path self
   \/ exists w, Ghost.path self = w :: Ghost.path (Ghost.move self grid))
  /\ Ghost.speed (Ghost.move self grid) = Ghost.speed self
  /\ Ghost.color (Ghost.move self grid) = Ghost.color self
  /\ Ghost.radius (Ghost.move self grid) = Ghost.radius self.
Proof.
  unfold Ghost.move. destruct (Ghost.path self) as [|w r] eqn:E.
  - repeat split; try reflexivity. left. exact E.
  - destruct (_ && _); simpl; repeat split; try reflexivity;
      [right; exists w; reflexivity | left; reflexivity].
Qed.

(** X17: however many times [Ghost.move] is called, the ghost only ever eats
    its path from the front: the path left is a suffix of the path it started
    with (never longer, never reordered), and speed, colour and radius are
    what they were. *)
Theorem ghost_ticks_path_suffix (n : nat) (g : Ghost.t) (grid : Grid) :
  Ghost.path (ghost_ticks n grid g) `suffix_of` Ghost.path g
  /\ (length (Ghost.path (ghost_ticks n grid g)) <= length (Ghost.path g))%nat
  /\ Ghost.speed (ghost_ticks n grid g) = Ghost.speed g
  /\ Ghost.color (ghost_ticks n grid g) = Ghost.color g
  /\ Ghost.radius (ghost_ticks n grid g) = Ghost.radius g.
Proof.
  assert (H : Ghost.path (ghost_ticks n grid g) `suffix_of` Ghost.path g
              /\ Ghost.speed (ghost_ticks n grid g) = Ghost.speed g
              /\ Ghost.color (ghost_ticks n grid g) = Ghost.color g
              /\ Ghost.radius (ghost_ticks n grid g) = Ghost.radius g).
  { induction n as [|n IH]; [repeat split; reflexivity|].
    destruct IH as (Hsuf & Hs & Hc & Hr).
    change (ghost_ticks (S n) grid g)
      with (Ghost.move (ghost_ticks n grid g) grid).
    destruct (ghost_move_step (ghost_ticks n grid g) grid)
      as (Hp & Hs' & Hc' & Hr').
    split; [| repeat split; congruence].
    destruct Hp as [->|[w Hw]]; [exact Hsuf|].
    etransitivity; [| exact Hsuf]. rewrite Hw. apply suffix_cons_r.
    reflexivity. }
  destruct H as (Hsuf & Hs & Hc & Hr).
  split; [exact Hsuf|]. split; [apply suffix_length, Hsuf|].
  repeat split; assumption.
Qed.

(** X18: at a speed between 0 and 1 a ghost never overshoots its waypoint:
    on each axis the new offset to the waypoint is no larger than the old one
    and does not change sign. *)
Theorem ghost_move_no_overshoot
    (self : Ghost.t) (grid : Grid) (w : Cell) (r : list Cell) :
  Ghost.path self = w :: r ->
  (0 <= Ghost.speed self <= 1)%Q ->
  let ox := (fst (Ghost.position self) - inject_Z (fst w))%Q in
  let oy := (snd (Ghost.position self) - inject_Z (snd w))%Q in
  let ox' := (fst (Ghost.position (Ghost.move self grid))
              - inject_Z (fst w))%Q in
  let oy' := (snd (Ghost.position (Ghost.move self grid))
              - inject_Z (snd w))%Q in
  (Qabs ox' <= Qabs ox /\ 0 <= ox' * ox)%Q
  /\ (Qabs oy' <= Qabs oy /\ 0 <= oy' * oy)%Q.
Proof.
  intros Hp Hs ox oy ox' oy'.
  assert (Hmul : forall s o o' : Q,
             (0 <= s <= 1)%Q -> (o' == (1 - s) * o)%Q ->
             (Qabs o' <= Qabs o /\ 0 <= o' * o)%Q).
  { intros s o o' Hs' E. rewrite E. split.
    - apply Qabs_Qle_condition. destruct (Qabs_cases o) as [[? Ea]|[? Ea]];
        rewrite Ea; split; nra.
    - pose proof (Qsquare_nonneg o).
      assert (E2 : ((1 - s) * o * o == (1 - s) * (o * o))%Q) by ring.
      rewrite E2. nra. }
  assert (Hzero : forall o o' : Q, (o' == 0)%Q ->
             (Qabs o' <= Qabs o /\ 0 <= o' * o)%Q).
  { intros o o' E. rewrite E. split; [apply Qabs_nonneg|].
    assert (E2 : (0 * o == 0)%Q) by ring. rewrite E2. apply Qle_refl. }
  destruct (ghost_move_spec self grid w r Hp)
    as [_ [(_ & Hpos & _)|(_ & Ex & Ey & _)]].
  - subst ox' oy'. rewrite Hpos. unfold Z2P. cbn [fst snd].
    split; apply Hzero; ring.
  - split.
    + apply (Hmul (Ghost.speed self)); [exact Hs|].
      subst ox' ox. rewrite Ex. ring.
    + apply (Hmul (Ghost.speed self)); [exact Hs|].
      subst oy' oy. rewrite Ey. ring.
Qed.

Lemma ghost_move_no_overshoot_witness :
  (Qabs (fst (Ghost.position (Ghost.move ghost_10_10 the_grid))
         - inject_Z 11)
   <= Qabs (fst (Ghost.position ghost_10_10) - inject_Z 11))%Q.
Proof.
  refine (proj1 (proj1 (ghost_move_no_overshoot ghost_10_10 the_grid
                          (11, 10) [] eq_refl _))).
  split; discriminate.
Defined.

(** ** Following a path to its end *)




(** ** sync_paths *)

Lemma min_from_spec {A} (key : A -> Q) (l : list A) :
  forall best,
    exists before after,
      best :: l = before ++ min_from key best l :: after
      /\ (forall x, x ∈ before -> (key (min_from key best l) < key x)%Q)
      /\ (forall x, x ∈ after -> (key (min_from key best l) <= key x)%Q).
Proof.
  induction l as [|a l IH]; intros best; simpl.
  - exists [], []. split; [reflexivity|].
    split; intros x Hx; inversion Hx.
  - destruct (Qltb (key a) (key best)) eqn:E.
    + apply Qltb_lt in E.
      destruct (IH a) as (before & after & Heq & Hb & Ha).
      exists (best :: before), after. rewrite Heq. split; [reflexivity|].
      split; [| exact Ha]. intros x Hx.
      apply elem_of_cons in Hx as [->|Hx]; [| apply Hb, Hx].
      assert (Hm : (key (min_from key a l) <= key a)%Q).
      { destruct before as [|b before].
        - injection Heq as Heq _. rewrite <- Heq. apply Qle_refl.
        - injection Heq as <- _. apply Qlt_le_weak, Hb. left. }
      lra.
    + apply Qltb_false in E.
      destruct (IH best) as (before & after & Heq & Hb & Ha).
      destruct before as [|b before].
      * injection Heq as Heq Hl. subst after. exists [], (a :: l).
        rewrite <- Heq. split; [reflexivity|].
        split; [intros x Hx; inversion Hx|]. intros x Hx.
        apply elem_of_cons in Hx as [->|Hx]; [lra|].
        rewrite Heq at 1. apply Ha, Hx.
      * injection Heq as <- Hl. exists (best :: a :: before), after.
        split; [simpl; do 2 f_equal; exact Hl|]. split; [| exact Ha].
        intros x Hx. apply elem_of_cons in Hx as [->|Hx]; [apply Hb; left|].
        apply elem_of_cons in Hx as [->|Hx]; [| apply Hb; right; exact Hx].
        assert (key (min_from key best l) < key best)%Q by (apply Hb; left).
        lra.
Qed.

Lemma py_min_nearest (players : list Player.t) (ghost : Ghost.t)
    (target : Player.t) :
  py_min (fun player =>
            heuristic_pos (Ghost.position ghost) (Player.position player))
    players = Some target ->
  nearest_player players ghost target.
Proof.
  destruct players as [|p players]; [discriminate|]. simpl. intros [= <-].
  apply (min_from_spec
           (fun player =>
              heuristic_pos (Ghost.position ghost) (Player.position player))).
Qed.

Lemma preserves_a_star_search (start goal : Pos) :
  preserves (a_star_search start goal).
Proof.
  unfold a_star_search.
  apply preserves_bind; [apply preserves_search_loop|]. intros st.
  apply preserves_bind; [auto with frame|]. intros path. auto with frame.
Qed.

(** X20: [sync_paths] touches nothing but the ghosts' paths: however the call
    ends, the grid is the one it was given and the ghosts are the same
    ghosts, in the same order, with position, speed, colour and radius
    unchanged. *)
Theorem sync_paths_only_sets_paths
    (players : list Player.t) (ghosts : list Ghost.t) (grid : Grid) :
  snd (sync_paths players ghosts grid) = grid
  /\ Forall2 same_but_path (snd (fst (sync_paths players ghosts grid))) ghosts.
Proof.
  assert (Hrefl : forall gs : list Ghost.t, Forall2 same_but_path gs gs).
  { induction gs; constructor; [repeat split | assumption]. }
  revert grid. induction ghosts as [|g ghosts IH]; intros grid; simpl.
  - split; [reflexivity | constructor].
  - destruct (py_min _ players) as [cp|]; [| split; [reflexivity | apply Hrefl]].
    pose proof (preserves_a_star_search
                  (Ghost.position g) (Player.position cp) grid) as Hg.
    destruct (a_star_search _ _ grid) as [[path|e|] g1]; simpl in Hg; subst g1;
      try (split; [reflexivity | apply Hrefl]).
    destruct (IH grid) as [H1 H2].
    destruct (sync_paths players ghosts grid) as [[st rest'] g2]. simpl in *.
    split; [exact H1|]. constructor; [repeat split | exact H2].
Qed.



Lemma sync_paths_done
    (players : list Player.t) (ghosts : list Ghost.t) (grid : Grid) :
  wf_grid grid -> players <> [] ->
  exists ghosts',
    sync_paths players ghosts grid = (SyncDone, ghosts', grid)
    /\ Forall2 (chases players grid) ghosts' ghosts.
Proof.
  intros Hwf Hne. induction ghosts as [|g ghosts IH]; simpl.
  - exists []. split; [reflexivity | constructor].
  - destruct (py_min _ players) as [cp|] eqn:Emin;
      [| destruct players; [contradiction | discriminate]].
    destruct (a_star_search_cases (Ghost.position g) (Player.position cp)
                grid Hwf) as (path & Hrun & _).
    rewrite Hrun. destruct IH as (rest' & Hrest & Hall). rewrite Hrest.
    exists (Ghost.set_path g path :: rest'). split; [reflexivity|].
    constructor; [| exact Hall].
    exists cp, path. split; [apply py_min_nearest, Emin|].
    split; [exact Hrun | reflexivity].
Qed.



(** ** color_selection_menu *)

Lemma menu_events_valid (events : list event) :
  forall s, 0 <= s < 3 ->
    match menu_events s events with
    | MenuReturn c => c ∈ AVAILABLE_COLORS
    | MenuOpen s' => 0 <= s' < 3
    | MenuExit => True
    | MenuIndexError => False
    end.
Proof.
  induction events as [|e events IH]; intros s Hs; simpl; [exact Hs|].
  destruct e as [ | k | ]; [exact I | | apply IH; exact Hs].
  destruct k; try (apply IH; exact Hs).
  - apply IH. change (Z.of_nat (length AVAILABLE_COLORS)) with 3.
    apply Z.mod_pos_bound. lia.
  - apply IH. change (Z.of_nat (length AVAILABLE_COLORS)) with 3.
    apply Z.mod_pos_bound. lia.
  - assert (C : s = 0 \/ s = 1 \/ s = 2) by lia. clear Hs.
    destruct C as [-> | [-> | ->]]; simpl; set_solver.
Qed.

(** X23: whatever keys are pressed, the colour menu never indexes outside
    [AVAILABLE_COLORS]: the selection stays in 0..2 (LEFT and RIGHT wrap
    around), so RETURN always yields one of the three colours. *)
Theorem color_selection_menu_valid (events : list event) :
  match color_selection_menu events with
  | MenuReturn c => c ∈ AVAILABLE_COLORS
  | MenuOpen s => 0 <= s < 3
  | MenuExit => True
  | MenuIndexError => False
  end.
Proof. apply menu_events_valid. lia. Qed.

(** LEFT on the first colour wraps to the last one. *)
Example color_selection_menu_wraps :
  color_selection_menu [KEYDOWN K_LEFT; KEYDOWN K_RETURN] = MenuReturn ORANGE
  /\ color_selection_menu
       [KEYDOWN K_RIGHT; KEYDOWN K_RIGHT; KEYDOWN K_RIGHT; KEYDOWN K_RETURN]
     = MenuReturn GREEN.
Proof. split; reflexivity. Qed.

(** ** One pass of the game loop *)

Lemma cell_kept_trans (a b c : Z) : cell_kept a b -> cell_kept b c -> cell_kept a c.
Proof. unfold cell_kept. lia. Qed.

Lemma grid_kept_trans (g1 g2 g3 : Grid) :
  grid_kept g1 g2 -> grid_kept g2 g3 -> grid_kept g1 g3.
Proof.
  unfold grid_kept. apply Forall2_trans. intros r1 r2 r3.
  apply Forall2_trans. exact cell_kept_trans.
Qed.

Lemma grid_kept_walled_border (g' grid : Grid) :
  grid_kept g' grid -> walled_border grid -> walled_border g'.
Proof.
  intros Hk Hb i Hi. destruct (Hb i Hi) as (H1 & H2 & H3 & H4).
  repeat split; apply (grid_kept_wall g' grid); assumption.
Qed.

Lemma move_players_ok (players : list Player.t) :
  forall grid,
    wf_grid grid -> walled_border grid ->
    exists players' grid',
      move_players players grid = (Ok players', grid')
      /\ grid_kept grid' grid
      /\ length players' = length players
      /\ total_score players' + 10 * Z.of_nat (pellet_count grid')
         = total_score players + 10 * Z.of_nat (pellet_count grid).
Proof.
  induction players as [|p players IH]; intros grid Hwf Hb; simpl.
  - exists [], grid. split; [reflexivity|].
    split; [apply grid_kept_refl | split; reflexivity].
  - destruct (player_move_ok p grid Hwf Hb) as (p' & g1 & Hmove).
    pose proof (player_move_kept _ _ _ _ Hmove) as Hk1.
    pose proof (player_move_balance _ _ _ _ Hmove) as (Hbal & _ & _).
    destruct (IH g1 (grid_kept_wf _ _ Hk1 Hwf)
                (grid_kept_walled_border _ _ Hk1 Hb))
      as (ps' & g2 & Hrest & Hk2 & Hlen & Hbal2).
    exists (p' :: ps'), g2. unfold bind. rewrite Hmove, Hrest.
    split; [reflexivity|].
    split; [eapply grid_kept_trans; eassumption|].
    split; [simpl; lia | simpl; lia].
Qed.

(** X24: on a well-formed grid with walled border and at least one player, a
    pass of the game loop never raises: the players move, every ghost is given
    a path and moves, and the collision test reports.  The grid stays
    well-formed with walled border (so the next pass is safe too), only
    pellets disappear from it, nobody joins or leaves, and the total score
    plus ten times the pellets left is unchanged. *)
Theorem game_tick_safe
    (players : list Player.t) (ghosts : list Ghost.t) (grid : Grid) :
  wf_grid grid -> walled_border grid -> players <> [] ->
  exists loser players' ghosts' grid',
    game_tick players ghosts grid = (TickDone loser, players', ghosts', grid')
    /\ wf_grid grid' /\ walled_border grid' /\ grid_kept grid' grid
    /\ length players' = length players
    /\ length ghosts' = length ghosts
    /\ total_score players' + 10 * Z.of_nat (pellet_count grid')
       = total_score players + 10 * Z.of_nat (pellet_count grid).
Proof.
  intros Hwf Hb Hne. unfold game_tick.
  destruct (move_players_ok players grid Hwf Hb)
    as (ps' & g1 & Hmove & Hk & Hlen & Hbal).
  rewrite Hmove.
  pose proof (grid_kept_wf _ _ Hk Hwf) as Hwf1.
  destruct (sync_paths_done ps' ghosts g1 Hwf1) as (gs' & Hsync & Hall).
  { intros ->. destruct players; [contradiction | discriminate]. }
  rewrite Hsync.
  eexists _, ps', _, g1. split; [reflexivity|].
  split; [exact Hwf1|].
  split; [exact (grid_kept_walled_border _ _ Hk Hb)|].
  split; [exact Hk|]. split; [exact Hlen|]. split; [| exact Hbal].
  rewrite length_map. eapply Forall2_length. exact Hall.
Qed.

Lemma game_tick_safe_witness :
  exists loser players' ghosts' grid',
    game_tick [runner_1_1] [ghost_10_10] the_grid
    = (TickDone loser, players', ghosts', grid')
    /\ wf_grid grid' /\ walled_border grid' /\ grid_kept grid' the_grid
    /\ length players' = length [runner_1_1]
    /\ length ghosts' = length [ghost_10_10]
    /\ total_score players' + 10 * Z.of_nat (pellet_count grid')
       = total_score [runner_1_1] + 10 * Z.of_nat (pellet_count the_grid).
Proof.
  apply (game_tick_safe [runner_1_1] [ghost_10_10] the_grid).
  - exact the_grid_wf.
  - exact the_grid_walled_border.
  - discriminate.
Defined.

(** With the two players and two ghosts of [main] on the maze of
    [create_grid], the first pass: player 1 is blocked by the left wall,
    player 2 steps left and eats a pellet, nobody is caught. *)
Example game_tick_first_pass :
  let players := [Player.__init__ 1 1 1 GREEN "Player 1";
                  Player.__init__ 2 18 18 GOLDEN "Player 2"] in
  let ghosts := [Ghost.__init__ 10 10 PURPLE; Ghost.__init__ 12 10 ORANGE] in
  match game_tick players ghosts the_grid with
  | (TickDone loser, players', ghosts', grid') =>
      loser = None
      /\ map Player.position players' = [(1%Q, 1%Q); ((35 # 2)%Q, 18%Q)]
      /\ map Player.score players' = [0; 10]
      /\ pellet_count grid' = 303%nat
  | _ => False
  end.
Proof. vm_compute. repeat split. Qed.

(** ** check_collision: who is reported *)

